(** * Cellular-Automata helper utilities: [my_utils.py]

    A shallow embedding of [state_to_binary_string], [group_duplicates] and
    [create_summary_table], and the properties of the duplicate grouper and
    of the summary builder.

    Conventions of the embedding.
    - A Python [dict] keeps its keys in insertion order, and the grouper
      iterates [groups.values()] in that order: the dictionary is an
      association list with pairwise distinct keys, newest key last.
    - The elements of a frequency vector are values of a type [A] with a
      decidable equality, which stands for Python's [==] on the numbers
      stored in the vectors; the concrete examples take [A := Z].
    - Rule numbers and lengths are natural numbers.
    - [Dynamic.group_duplicates] is the grouper on values of any kind,
      scalars or lists, where [tuple(vec)] and the hashing of the key can
      raise [TypeError]; on sequences of scalars it is [group_duplicates].
    - [all_results[idx]] and [result["frequency_vectors"]] can raise; the
      summary builder lives in a small state-and-exception monad whose
      state is the process-wide table of pandas options. *)

From Stdlib Require Import ZArith DecimalString.
From stdpp Require Import base list gmap strings relations sorting.

#[local] Set Warnings "-clear-no-such-hyp".
#[local] Set Warnings "-register-all".


(** ** Python built-ins used by the module *)

Module Py.

(** [enumerate(l, start)]. *)
Fixpoint enumerate {B : Type} (start : nat) (l : list B) : list (nat * B) :=
  match l with
  | [] => []
  | x :: l' => (start, x) :: enumerate (S start) l'
  end.

(** [tuple(vec)]: the immutable copy of a sequence, compared element by
    element and in order. *)
Definition tuple {B : Type} (vec : list B) : list B := vec.

(** [str(z)] on an integer: decimal digits, a leading minus sign for
    negative numbers. *)
Definition str (z : Z) : string := NilZero.string_of_int (Z.to_int z).

(** [sep.join(l)]. *)
Fixpoint join (sep : string) (l : list string) : string :=
  match l with
  | [] => ""%string
  | [s] => s
  | s :: l' => s +:+ sep +:+ join sep l'
  end.

(** The exceptions the module can raise. *)
Inductive exn : Type :=
| IndexError
| KeyError (key : string)
| TypeError.

End Py.

(** ** The state encoder *)

(** [return "".join(map(str, state))] *)
Definition state_to_binary_string (state : list Z) : string :=
  Py.join ""%string (map Py.str state).

(** ** The duplicate grouper *)

Section grouper.
Context {A : Type} `{EqDecision A}.

(** The dictionary [groups]: keys are tuples, values are lists of rule
    numbers; insertion order is the order of the list. *)
Definition groups_dict : Type := list (list A * list nat).

(** [groups.values()] *)
Definition values (groups : groups_dict) : list (list nat) := map snd groups.

(** [groups.setdefault(key, []).append(rule_num)]: the list stored under
    [key] is extended in place; an absent key is inserted last, with the
    one-element list. *)
Fixpoint setdefault_append (groups : groups_dict) (key : list A)
    (rule_num : nat) : groups_dict :=
  match groups with
  | [] => [(key, [rule_num])]
  | (k, group) :: rest =>
      if decide (k = key) then (k, group ++ [rule_num]) :: rest
      else (k, group) :: setdefault_append rest key rule_num
  end.

(** The body of the [for] loop. *)
Definition loop_body (groups : groups_dict) (item : nat * list A) : groups_dict :=
  let '(rule_num, vec) := item in
  let key := Py.tuple vec in
  setdefault_append groups key rule_num.

(** The dictionary after the loop over [enumerate(freq_vectors, start)]. *)
Definition bucket_loop (start : nat) (freq_vectors : list (list A))
    (groups : groups_dict) : groups_dict :=
  fold_left loop_body (Py.enumerate start freq_vectors) groups.

(** [[group for group in groups.values() if len(group) > 1]] *)
Definition keep_duplicates (groups : groups_dict) : list (list nat) :=
  filter (λ group, 1 < length group) (values groups).

Definition group_duplicates (freq_vectors : list (list A)) : list (list nat) :=
  let groups := bucket_loop 1 freq_vectors [] in
  keep_duplicates groups.

(** *** The loop as a transition system

    A state of the [for] loop: the items [enumerate] has still to yield and
    the dictionary built so far. One transition runs the body once. *)
Record loop_state : Type := LoopState {
  pending : list (nat * list A);
  groups_of : groups_dict
}.

Inductive step : loop_state → loop_state → Prop :=
| step_iteration rule_num vec items groups :
    step (LoopState ((rule_num, vec) :: items) groups)
         (LoopState items (setdefault_append groups (Py.tuple vec) rule_num)).

(** A call on [freq_vectors] returns [out]: the loop runs from the empty
    dictionary until [enumerate] is exhausted, and the comprehension is
    applied to the dictionary reached. *)
Definition returns (freq_vectors : list (list A)) (out : list (list nat)) : Prop :=
  ∃ groups,
    rtc step (LoopState (Py.enumerate 1 freq_vectors) []) (LoopState [] groups)
    ∧ out = keep_duplicates groups.

(** *** The grouping as the specification words it *)

(** The distinct keys, in the order each was first encountered. *)
Fixpoint first_seen (vectors : list (list A)) : list (list A) :=
  match vectors with
  | [] => []
  | v :: vectors' => v :: filter (λ k, k ≠ v) (first_seen vectors')
  end.

(** The bucket of [key]: the 1-based positions of the vectors equal to
    [key], in increasing order. *)
Definition rule_indices (key : list A) (vectors : list (list A)) : list nat :=
  filter (λ i, vectors !! (i - 1) = Some key) (seq 1 (length vectors)).

(** The mapping from key to ordered list of indices: one entry per distinct
    key, in first-seen order, holding the key's bucket. *)
Definition spec_dict (vectors : list (list A)) : groups_dict :=
  map (λ key, (key, rule_indices key vectors)) (first_seen vectors).

Definition buckets (vectors : list (list A)) : list (list nat) :=
  map (λ key, rule_indices key vectors) (first_seen vectors).

(** The buckets with at least two members, in first-seen order. *)
Definition spec_group_duplicates (vectors : list (list A)) : list (list nat) :=
  filter (λ bucket, 2 ≤ length bucket) (buckets vectors).

(** Rule numbers [a] and [b] are members of one emitted group. *)
Definition same_group (vectors : list (list A)) (a b : nat) : Prop :=
  ∃ group, group ∈ group_duplicates vectors ∧ a ∈ group ∧ b ∈ group.

End grouper.

(** ** The summary builder *)

(** The process-wide pandas option table, the only global state the module
    touches. [pd.set_option] resolves the pattern ["max_colwidth"] to the one
    option it names; the table is keyed by the name as the source gives it. *)
Abbreviation pd_options := (gmap string Z).

(** Computations that read and write the option table and may raise. A
    raised exception keeps the table as it was when the exception left. *)
Definition M (X : Type) : Type := pd_options → pd_options * (Py.exn + X).

#[global] Instance M_ret : MRet M := λ X x σ, (σ, inr x).
#[global] Instance M_bind : MBind M := λ X Y f c σ,
  match c σ with
  | (σ', inl e) => (σ', inl e)
  | (σ', inr x) => f x σ'
  end.

Definition raise {X : Type} (e : Py.exn) : M X := λ σ, (σ, inl e).

(** [pd.set_option(name, value)] *)
Definition pd_set_option (name : string) (value : Z) : M () :=
  λ σ, (<[name := value]> σ, inr ()).

(** [l[idx]] on a list, for an index that is not negative. *)
Definition getitem {B : Type} (l : list B) (idx : nat) : M B :=
  match l !! idx with
  | Some x => mret x
  | None => raise Py.IndexError
  end.

(** [d[key]] on a dictionary. *)
Definition getkey {B : Type} (d : gmap string B) (key : string) : M B :=
  match d !! key with
  | Some x => mret x
  | None => raise (Py.KeyError key)
  end.

(** One row of the table: the dictionary appended to [stats]. *)
Record summary_row : Type := SummaryRow {
  Initial_State : string;
  Group_Count : nat;
  Duplicate_Groups : list (list nat)
}.

(** [pd.DataFrame(stats)] for a list of dictionaries with the same keys: one
    row per dictionary, in the order of the list. *)
Definition DataFrame (stats : list summary_row) : list summary_row := stats.

Section summary.
Context {A : Type} `{EqDecision A}.

(** The row built from an initial state and the frequency vectors found in
    its result. *)
Definition summary_record (init : list Z) (freq_vectors : list (list A)) : summary_row :=
  let dup_groups := group_duplicates freq_vectors in
  {| Initial_State := state_to_binary_string init;
     Group_Count := length dup_groups;
     Duplicate_Groups := dup_groups |}.

(** A result that carries its frequency-vector collection. *)
Definition has_frequency_vectors (result : gmap string (list (list A))) : Prop :=
  is_Some (result !! "frequency_vectors"%string).

(** [for idx, init in enumerate(init_states): ...], run on the items that
    are left, with [stats] as built so far. *)
Fixpoint summary_loop (items : list (nat * list Z))
    (all_results : list (gmap string (list (list A))))
    (stats : list summary_row) : M (list summary_row) :=
  match items with
  | [] => mret stats
  | (idx, init) :: items' =>
      result ← getitem all_results idx;
      freq_vectors ← getkey result "frequency_vectors"%string;
      let dup_groups := group_duplicates freq_vectors in
      let stats := stats ++ [ {| Initial_State := state_to_binary_string init;
                                 Group_Count := length dup_groups;
                                 Duplicate_Groups := dup_groups |} ] in
      summary_loop items' all_results stats
  end.

Definition create_summary_table (init_states : list (list Z))
    (all_results : list (gmap string (list (list A)))) : M (list summary_row) :=
  stats ← summary_loop (Py.enumerate 0 init_states) all_results [];
  _ ← pd_set_option "max_colwidth"%string 50;
  let df := DataFrame stats in
  mret df.

End summary.


(** ** The plotting helpers: [plot_utils.py]

    The helpers draw through [matplotlib.pyplot], whose figure is
    process-wide state. A call of a [plt] function is recorded, with its
    arguments, at the end of the log of calls made so far. *)

Section plotting.
Context {A : Type}.

(** The [plt] calls the helpers make. *)
Inductive plt_call : Type :=
| plt_figure (figsize : Z * Z)
| plt_plot (xs : list nat) (ys : list A) (label : string)
| plt_title (text : string)
| plt_xlabel (text : string)
| plt_ylabel (text : string)
| plt_grid (visible : bool)
| plt_legend
| plt_show.

(** Computations that extend the log of [plt] calls and may raise. *)
Definition Plt (X : Type) : Type := list plt_call → list plt_call * (Py.exn + X).

#[global] Instance Plt_ret : MRet Plt := λ X x log, (log, inr x).
#[global] Instance Plt_bind : MBind Plt := λ X Y f c log,
  match c log with
  | (log', inl e) => (log', inl e)
  | (log', inr x) => f x log'
  end.

Definition plt (call : plt_call) : Plt () := λ log, (log ++ [call], inr ()).

(** [l[i]] on a sequence, for any integer [i]: a negative index counts from
    the end, an index outside [-len(l) .. len(l) - 1] raises [IndexError]. *)
Definition index {B : Type} (l : list B) (i : Z) : option B :=
  if decide (0 ≤ i)%Z then l !! Z.to_nat i
  else if decide (- Z.of_nat (length l) ≤ i)%Z then l !! Z.to_nat (Z.of_nat (length l) + i)
  else None.

Definition subscript {B : Type} (l : list B) (i : Z) : Plt B :=
  match index l i with
  | Some x => mret x
  | None => λ log, (log, inl Py.IndexError)
  end.

(** [np.arange(n)] *)
Definition arange (n : nat) : list nat := seq 0 n.

(** The figure decorations both line plots end with: [plt.xlabel] to
    [plt.show]. *)
Definition finish_line_plot : Plt () :=
  _ ← plt (plt_xlabel "Position");
  _ ← plt (plt_ylabel "Frequency of 1s");
  _ ← plt (plt_grid true);
  _ ← plt plt_legend;
  plt plt_show.

(** [plot_frequency_vector(rule_num, frequency_vector, title_prefix)] *)
Definition plot_frequency_vector (rule_num : Z) (frequency_vector : list A)
    (title_prefix : string) : Plt () :=
  _ ← plt (plt_figure (10, 6)%Z);
  _ ← plt (plt_plot (arange (length frequency_vector)) frequency_vector
             ("Rule " +:+ Py.str rule_num));
  _ ← plt (plt_title (title_prefix +:+ " for Rule " +:+ Py.str rule_num));
  finish_line_plot.

(** The default of [title_prefix]. *)
Definition default_title_prefix : string := "Frequency Vector".

(** [for rule_num in rule_nums: plt.plot(...)]; the subscript
    [frequency_vectors[rule_num]] is evaluated for [len] and again for the
    data. *)
Fixpoint plot_lines (frequency_vectors : list (list A)) (rule_nums : list Z) : Plt () :=
  match rule_nums with
  | [] => mret ()
  | rule_num :: rule_nums' =>
      vec_len ← subscript frequency_vectors rule_num;
      vec ← subscript frequency_vectors rule_num;
      _ ← plt (plt_plot (arange (length vec_len)) vec ("Rule " +:+ Py.str rule_num));
      plot_lines frequency_vectors rule_nums'
  end.

(** [plot_multiple_frequency_vectors(frequency_vectors, rule_nums, title)] *)
Definition plot_multiple_frequency_vectors (frequency_vectors : list (list A))
    (rule_nums : list Z) (title : string) : Plt () :=
  _ ← plt (plt_figure (10, 6)%Z);
  _ ← plot_lines frequency_vectors rule_nums;
  _ ← plt (plt_title title);
  finish_line_plot.

(** The default of [title]. *)
Definition default_title : string := "Frequency Vectors".

(** The series drawn by the calls of a log: label and data of each
    [plt.plot], in order. *)
Definition series_of (log : list plt_call) : list (string * list A) :=
  omap (λ call, match call with
                | plt_plot _ ys label => Some (label, ys)
                | _ => None
                end) log.

(** The figure opened last has been shown. *)
Definition shown (log : list plt_call) : Prop := last log = Some plt_show.

(** The [plt.plot] call for one rule number whose subscript is in range,
    and the calls for the rule numbers of a list that are. *)
Definition line_call (frequency_vectors : list (list A)) (rule_num : Z) : option plt_call :=
  vec ← index frequency_vectors rule_num;
  Some (plt_plot (arange (length vec)) vec ("Rule " +:+ Py.str rule_num)).

Definition line_calls (frequency_vectors : list (list A)) (rule_nums : list Z) :
    list plt_call :=
  omap (line_call frequency_vectors) rule_nums.

(** The calls after the lines: title and decorations. *)
Definition closing_calls (title : string) : list plt_call :=
  [plt_title title; plt_xlabel "Position"; plt_ylabel "Frequency of 1s";
   plt_grid true; plt_legend; plt_show].

End plotting.

(** ** The grouper on values of any kind

    [group_duplicates] takes whatever it is handed. Two steps of its loop
    can raise: [tuple(vec)] needs [vec] to be iterable, and
    [groups.setdefault(key, [])] hashes the key, which hashes every element
    of the tuple. Values are therefore of two kinds here: scalars, which
    can be hashed and cannot be iterated (numbers), and lists, which can be
    iterated and cannot be hashed. *)

Module Dynamic.

Inductive value {A : Type} : Type :=
| Num (a : A)
| List (items : list value).
Arguments value : clear implicits.

(** [tuple(vec)]: the elements of an iterable; a scalar is not iterable. *)
Definition tuple {A : Type} (vec : value A) : Py.exn + list (value A) :=
  match vec with
  | List items => inr items
  | Num _ => inl Py.TypeError
  end.

(** [hash(x)] succeeds on a scalar, which then takes part in the key by its
    value; a list is unhashable. *)
Definition hash {A : Type} (x : value A) : Py.exn + A :=
  match x with
  | Num a => inr a
  | List _ => inl Py.TypeError
  end.

(** Hashing a tuple hashes its elements from left to right; the key is
    then compared by the values of its elements. *)
Fixpoint hash_tuple {A : Type} (key : list (value A)) : Py.exn + list A :=
  match key with
  | [] => inr []
  | x :: key' =>
      match hash x with
      | inl e => inl e
      | inr a =>
          match hash_tuple key' with
          | inl e => inl e
          | inr k => inr (a :: k)
          end
      end
  end.

(** The [for] loop on the items [enumerate] has still to yield. *)
Fixpoint bucket_loop {A : Type} `{EqDecision A} (items : list (nat * value A))
    (groups : list (list A * list nat)) : Py.exn + list (list A * list nat) :=
  match items with
  | [] => inr groups
  | (rule_num, vec) :: items' =>
      match tuple vec with
      | inl e => inl e
      | inr key =>
          match hash_tuple key with
          | inl e => inl e
          | inr k => bucket_loop items' (setdefault_append groups k rule_num)
          end
      end
  end.

Definition group_duplicates {A : Type} `{EqDecision A}
    (freq_vectors : list (value A)) : Py.exn + list (list nat) :=
  match bucket_loop (Py.enumerate 1 freq_vectors) [] with
  | inl e => inl e
  | inr groups => inr (keep_duplicates groups)
  end.

(** A sequence of scalars as a value, and the values that are one. *)
Definition of_vector {A : Type} (vec : list A) : value A := List (Num <$> vec).

Definition vector_of_scalars {A : Type} (v : value A) : Prop :=
  ∃ vec, v = of_vector vec.

(** Rule numbers [a] and [b] are members of one group of the outcome. *)
Definition same_group (outcome : Py.exn + list (list nat)) (a b : nat) : Prop :=
  ∃ groups group, outcome = inr groups ∧ group ∈ groups ∧ a ∈ group ∧ b ∈ group.

End Dynamic.

(** * Properties *)

(** ** Sanity checks of the embedding *)

Example group_duplicates_smoke :
  group_duplicates [[1; 0]; [0; 1]; [1; 0]; [0; 1]; [2]; [1; 0]]%Z = [[1; 3; 6]; [2; 4]].
Proof. vm_compute. reflexivity. Qed.

Example str_smoke :
  Py.str 0 = "0"%string ∧ Py.str 12 = "12"%string ∧ Py.str (-7) = "-7"%string.
Proof. vm_compute. auto. Qed.

Example create_summary_table_smoke :
  create_summary_table [[0; 1]; [1; 1]]%Z
    [ {["frequency_vectors"%string := [[1; 0]; [1; 0]; [0; 1]]%Z]};
      {["frequency_vectors"%string := [[1]; [2]]%Z]} ] ∅
  = ({["max_colwidth"%string := 50%Z]},
     inr [SummaryRow "01" 1 [[1; 2]]; SummaryRow "11" 0 []]).
Proof. vm_compute. reflexivity. Qed.

(** ** The dictionary built by the loop *)

Section grouper_facts.
Context {A : Type} `{EqDecision A}.
Implicit Types (V : list (list A)) (key v : list A) (d : @groups_dict A).

Lemma enumerate_app {B} (l1 l2 : list B) start :
  Py.enumerate start (l1 ++ l2)
  = Py.enumerate start l1 ++ Py.enumerate (start + length l1) l2.
Proof.
  revert start. induction l1 as [|x l1 IH]; intros start; simpl.
  - by rewrite Nat.add_0_r.
  - rewrite IH. do 3 f_equal. lia.
Qed.

Lemma bucket_loop_snoc start V v d :
  bucket_loop start (V ++ [v]) d
  = setdefault_append (bucket_loop start V d) v (start + length V).
Proof.
  unfold bucket_loop. rewrite enumerate_app, fold_left_app. reflexivity.
Qed.

(** *** Keys in first-seen order *)

Lemma elem_of_first_seen V key : key ∈ first_seen V ↔ key ∈ V.
Proof.
  induction V as [|v V IH]; simpl; [done|].
  rewrite !elem_of_cons, list_elem_of_filter, IH.
  destruct (decide (key = v)); naive_solver.
Qed.

Lemma NoDup_first_seen V : NoDup (first_seen V).
Proof.
  induction V as [|v V IH]; simpl; [constructor|].
  constructor.
  - rewrite list_elem_of_filter. naive_solver.
  - by apply NoDup_filter.
Qed.

Lemma first_seen_snoc V v :
  first_seen (V ++ [v]) = first_seen V ++ (if decide (v ∈ V) then [] else [v]).
Proof.
  induction V as [|x V IH]; simpl; [done|].
  rewrite IH, filter_app. f_equal. f_equal.
  destruct (decide (v ∈ V)) as [Hin|Hin].
  - rewrite decide_True by (by right). done.
  - destruct (decide (v = x)) as [->|Hne].
    + rewrite decide_True by (by left).
      rewrite filter_cons_False by naive_solver. done.
    + rewrite decide_False by (rewrite elem_of_cons; naive_solver).
      by rewrite filter_cons_True.
Qed.

(** *** Buckets *)

Lemma elem_of_rule_indices key V i :
  i ∈ rule_indices key V ↔ 1 ≤ i ∧ V !! (i - 1) = Some key.
Proof.
  unfold rule_indices. rewrite list_elem_of_filter, elem_of_seq.
  split; [naive_solver lia|].
  intros [Hi Hl]. split; [done|].
  apply lookup_lt_Some in Hl. lia.
Qed.

Lemma filter_ext_elem_of {B} (P Q : B → Prop)
    `{!∀ x, Decision (P x), !∀ x, Decision (Q x)} (l : list B) :
  (∀ x, x ∈ l → P x ↔ Q x) → filter P l = filter Q l.
Proof.
  induction l as [|x l IH]; intros Hext; [done|].
  rewrite !filter_cons, IH by (intros y Hy; apply Hext; by right).
  destruct (decide (P x)) as [HP|HP], (decide (Q x)) as [HQ|HQ]; try done;
    exfalso; apply (Hext x) in HP || apply (Hext x) in HQ; by try left.
Qed.

Lemma rule_indices_snoc key V v :
  rule_indices key (V ++ [v])
  = rule_indices key V ++ (if decide (key = v) then [S (length V)] else []).
Proof.
  unfold rule_indices.
  rewrite length_app, Nat.add_1_r, seq_S, filter_app. f_equal.
  - apply filter_ext_elem_of. intros i [Hi1 Hi2]%elem_of_seq.
    by rewrite lookup_app_l by lia.
  - simpl. rewrite filter_cons, filter_nil.
    replace (S (length V) - 1) with (length V + 0) by lia.
    rewrite lookup_app_r, Nat.add_comm, Nat.add_sub by lia. simpl.
    destruct (decide (key = v)) as [->|Hne].
    + by rewrite decide_True.
    + rewrite decide_False; [done|]. intros [=]. by apply Hne.
Qed.

Lemma rule_indices_absent key V : key ∉ V → rule_indices key V = [].
Proof.
  intros Hnot. apply elem_of_nil_inv; intros i [_ Hi]%elem_of_rule_indices.
  apply Hnot. by eapply list_elem_of_lookup_2.
Qed.

(** *** The dictionary is the table of buckets *)

Lemma setdefault_append_table (f : list A → list nat) (keys : list (list A)) v n :
  NoDup keys →
  setdefault_append (map (λ key, (key, f key)) keys) v n
  = map (λ key, (key, f key ++ (if decide (key = v) then [n] else []))) keys
    ++ (if decide (v ∈ keys) then [] else [(v, [n])]).
Proof.
  induction keys as [|k keys IH]; intros Hnd; simpl; [done|].
  apply NoDup_cons in Hnd as [Hk Hnd].
  destruct (decide (k = v)) as [->|Hne].
  - rewrite decide_True by (by left). rewrite app_nil_r. f_equal.
    apply map_ext_in. intros key Hkey%list_elem_of_In.
    rewrite decide_False by (by intros ->). by rewrite app_nil_r.
  - rewrite IH by done. rewrite app_nil_r. simpl. f_equal.
    destruct (decide (v ∈ keys)) as [Hin|Hin].
    + rewrite decide_True by (by right). done.
    + rewrite decide_False by (rewrite elem_of_cons; naive_solver). done.
Qed.

Lemma bucket_loop_spec_dict V : bucket_loop 1 V [] = spec_dict V.
Proof.
  induction V as [|v V IH] using rev_ind; [done|].
  rewrite bucket_loop_snoc, IH. unfold spec_dict.
  rewrite setdefault_append_table by apply NoDup_first_seen.
  rewrite first_seen_snoc, map_app. f_equal.
  - apply map_ext. intros key. by rewrite rule_indices_snoc.
  - destruct (decide (v ∈ first_seen V)) as [Hin|Hin];
      rewrite elem_of_first_seen in Hin.
    + by rewrite decide_True.
    + rewrite decide_False by done. simpl.
      rewrite rule_indices_snoc, rule_indices_absent by done.
      by rewrite decide_True.
Qed.

Lemma group_duplicates_buckets V :
  group_duplicates V = filter (λ bucket, 2 ≤ length bucket) (buckets V).
Proof.
  unfold group_duplicates, keep_duplicates, values, buckets.
  rewrite bucket_loop_spec_dict. unfold spec_dict.
  rewrite map_map. simpl. reflexivity.
Qed.

Lemma elem_of_group_duplicates V group :
  group ∈ group_duplicates V ↔
  ∃ key, key ∈ V ∧ group = rule_indices key V ∧ 2 ≤ length group.
Proof.
  rewrite group_duplicates_buckets, list_elem_of_filter.
  unfold buckets. change map with (@fmap list _) at 1.
  rewrite list_elem_of_fmap. setoid_rewrite elem_of_first_seen.
  naive_solver.
Qed.

(** *** Shape of a bucket *)

Lemma StronglySorted_filter_seq (P : nat → Prop) `{!∀ i, Decision (P i)} start n :
  StronglySorted lt (filter P (seq start n)).
Proof.
  revert start. induction n as [|n IH]; intros start; simpl; [constructor|].
  rewrite filter_cons. destruct (decide (P start)); [|apply IH].
  constructor; [apply IH|].
  apply Forall_forall. intros i [_ Hi%elem_of_seq]%list_elem_of_filter. lia.
Qed.

Lemma StronglySorted_rule_indices key V : StronglySorted lt (rule_indices key V).
Proof. apply StronglySorted_filter_seq. Qed.

Lemma NoDup_rule_indices key V : NoDup (rule_indices key V).
Proof. apply NoDup_filter, NoDup_seq. Qed.

Lemma rule_indices_range key V i : i ∈ rule_indices key V → 1 ≤ i ≤ length V.
Proof.
  intros [Hi Hl%lookup_lt_Some]%elem_of_rule_indices. lia.
Qed.

Lemma rule_indices_key_unique key key' V i :
  i ∈ rule_indices key V → i ∈ rule_indices key' V → key = key'.
Proof.
  intros [_ H1]%elem_of_rule_indices [_ H2]%elem_of_rule_indices. congruence.
Qed.

Lemma two_members {B} (l : list B) a b :
  a ∈ l → b ∈ l → a ≠ b → 2 ≤ length l.
Proof.
  destruct l as [|x [|y l]]; simpl; intros Ha Hb Hne; [|exfalso|lia].
  - by apply not_elem_of_nil in Ha.
  - apply list_elem_of_singleton in Ha, Hb. congruence.
Qed.

(** *** Disjointness of the emitted groups *)

Lemma elem_of_concat {B} (ls : list (list B)) x :
  x ∈ concat ls ↔ ∃ l, l ∈ ls ∧ x ∈ l.
Proof.
  induction ls as [|l ls IH]; simpl.
  - split; [by intros ?%not_elem_of_nil|]. by intros (l & ?%not_elem_of_nil & _).
  - rewrite elem_of_app, IH. setoid_rewrite elem_of_cons. naive_solver.
Qed.

Lemma NoDup_concat_filter_map {K B} (P : list B → Prop) `{!∀ l, Decision (P l)}
    (f : K → list B) (keys : list K) :
  NoDup keys →
  (∀ k, NoDup (f k)) →
  (∀ k k' x, x ∈ f k → x ∈ f k' → k = k') →
  NoDup (concat (filter P (map f keys))).
Proof.
  intros Hnd Hf Hdisj. induction Hnd as [|k keys Hk Hnd IH]; simpl; [constructor|].
  rewrite filter_cons. destruct (decide (P (f k))); [|done]. simpl.
  apply NoDup_app. split_and!; [done| |done].
  intros x Hx (l & [_ Hl]%list_elem_of_filter & Hxl)%elem_of_concat.
  change map with (@fmap list _) in Hl.
  apply list_elem_of_fmap in Hl as (k' & -> & Hk').
  by rewrite (Hdisj _ _ _ Hx Hxl) in Hk.
Qed.

Lemma NoDup_concat_group_duplicates V : NoDup (concat (group_duplicates V)).
Proof.
  rewrite group_duplicates_buckets. unfold buckets.
  apply NoDup_concat_filter_map.
  - apply NoDup_first_seen.
  - intros key. apply NoDup_rule_indices.
  - intros key key' i. apply rule_indices_key_unique.
Qed.

(** *** Order of the buckets *)

(** The first rule index of each bucket, bucket after bucket. *)
Lemma bucket_heads_snoc V v :
  omap head (buckets (V ++ [v]))
  = omap head (buckets V) ++ (if decide (v ∈ V) then [] else [S (length V)]).
Proof.
  unfold buckets. rewrite first_seen_snoc, map_app.
  change map with (@fmap list _). rewrite omap_app. f_equal.
  - apply list_omap_ext, Forall2_fmap, Forall_Forall2_diag, Forall_forall.
    intros key Hkey. apply (proj1 (elem_of_first_seen V key)) in Hkey.
    rewrite rule_indices_snoc, head_app.
    destruct (rule_indices key V) as [|n bucket] eqn:Hbucket; [|done].
    exfalso. apply list_elem_of_lookup in Hkey as [i Hi].
    assert (S i ∈ rule_indices key V) as Hmem.
    { apply elem_of_rule_indices. simpl. rewrite Nat.sub_0_r. split; [lia|done]. }
    rewrite Hbucket in Hmem. by apply not_elem_of_nil in Hmem.
  - destruct (decide (v ∈ V)) as [Hin|Hin]; [done|]. simpl.
    rewrite rule_indices_snoc, rule_indices_absent by done.
    by rewrite decide_True.
Qed.

Lemma bucket_heads_range V n : n ∈ omap head (buckets V) → n ≤ length V.
Proof.
  intros (bucket & Hbucket & Hhead)%list_elem_of_omap.
  unfold buckets in Hbucket. change map with (@fmap list _) in Hbucket.
  apply list_elem_of_fmap in Hbucket as (key & -> & _).
  apply head_Some in Hhead as [rest Hrest].
  assert (n ∈ rule_indices key V) as Hn%rule_indices_range by (rewrite Hrest; by left).
  lia.
Qed.

Lemma StronglySorted_bucket_heads V : StronglySorted lt (omap head (buckets V)).
Proof.
  induction V as [|v V IH] using rev_ind; [constructor|].
  rewrite bucket_heads_snoc. apply StronglySorted_app. split_and!; [|done|].
  - intros n m Hn%bucket_heads_range Hm.
    destruct (decide (v ∈ V)); [by apply not_elem_of_nil in Hm|].
    apply list_elem_of_singleton in Hm. lia.
  - destruct (decide (v ∈ V)); repeat constructor.
Qed.

Lemma StronglySorted_omap_filter {B C} (R : relation C) (f : B → option C)
    (P : B → Prop) `{!∀ x, Decision (P x)} (l : list B) :
  StronglySorted R (omap f l) → StronglySorted R (omap f (filter P l)).
Proof.
  induction l as [|x l IH]; [done|].
  rewrite filter_cons. simpl.
  destruct (decide (P x)) as [HP|HP]; simpl; destruct (f x) as [y|]; intros Hsorted;
    try apply StronglySorted_inv in Hsorted as [Hsorted Hall]; auto.
  constructor; [auto|].
  rewrite Forall_forall in Hall. apply Forall_forall.
  intros z (x' & [_ Hx']%list_elem_of_filter & Hz)%list_elem_of_omap.
  apply Hall, list_elem_of_omap. eauto.
Qed.

Lemma StronglySorted_group_heads V :
  StronglySorted lt (omap head (group_duplicates V)).
Proof.
  rewrite group_duplicates_buckets.
  apply StronglySorted_omap_filter, StronglySorted_bucket_heads.
Qed.

(** *** Runs of the loop *)

Lemma step_deterministic (s s1 s2 : @loop_state A) :
  step s s1 → step s s2 → s1 = s2.
Proof. intros H1 H2. inversion H1; subst. inversion H2; subst. reflexivity. Qed.

Lemma run_to_completion items d :
  rtc step (LoopState items d) (LoopState [] (fold_left loop_body items d)).
Proof.
  revert d. induction items as [|[rule_num vec] items IH]; intros d; simpl.
  - apply rtc_refl.
  - eapply rtc_l; [constructor|]. apply IH.
Qed.

Lemma completed_run_dict (s : @loop_state A) d :
  rtc step s (LoopState [] d) → d = fold_left loop_body (pending s) (groups_of s).
Proof.
  intros Hrun. remember (LoopState [] d) as final eqn:Hfinal.
  revert Hfinal. induction Hrun as [s|s s' final Hstep Hrun IH]; intros Hfinal.
  - by subst.
  - inversion Hstep; subst. simpl. by apply IH.
Qed.

Lemma returns_group_duplicates V : returns V (group_duplicates V).
Proof. exists (bucket_loop 1 V []). split; [apply run_to_completion|done]. Qed.

Lemma returns_inv V out : returns V out → out = group_duplicates V.
Proof. intros (d & Hrun & ->). by rewrite (completed_run_dict _ _ Hrun). Qed.

(** ** The claims on the grouper *)

(** C1: on every ordered sequence of frequency vectors, [group_duplicates]
    does what the specification's algorithm describes. The vector at
    position [i] (counted from 1) has rule index [i]. The dictionary the
    loop builds holds one entry per distinct key, the keys in the order in
    which they are first encountered ([first_seen]), each with its bucket:
    the rule indices of the vectors equal to the key, element by element and
    in order ([rule_indices]). Exactly the buckets with at least two members
    are returned, in that order ([spec_group_duplicates]), singletons being
    dropped. The order is also visible on the output alone: the first rule
    index of a group is the position at which its key was first encountered,
    and these first indices increase strictly from one group to the next. *)
Theorem group_duplicates_refines_spec V :
  bucket_loop 1 V [] = spec_dict V
  ∧ group_duplicates V = spec_group_duplicates V
  ∧ StronglySorted lt (omap head (group_duplicates V)).
Proof.
  split_and!.
  - apply bucket_loop_spec_dict.
  - unfold spec_group_duplicates. apply group_duplicates_buckets.
  - apply StronglySorted_group_heads.
Qed.

(** C3: in the output of [group_duplicates] on [V], every rule index of
    every group lies in [1 .. len(V)]; the groups laid end to end list no
    index twice, so that no index is in two groups and none is twice in one
    group; and every group has at least two members. *)
Theorem group_duplicates_partition_invariant V :
  (∀ group i, group ∈ group_duplicates V → i ∈ group → 1 ≤ i ≤ length V)
  ∧ NoDup (concat (group_duplicates V))
  ∧ (∀ group, group ∈ group_duplicates V → 2 ≤ length group).
Proof.
  split_and!.
  - intros group i (key & _ & -> & _)%elem_of_group_duplicates.
    apply rule_indices_range.
  - apply NoDup_concat_group_duplicates.
  - by intros group (key & _ & _ & Hlen)%elem_of_group_duplicates.
Qed.

Lemma same_group_iff_equal V i j u v :
  V !! i = Some u → V !! j = Some v → i ≠ j →
  same_group V (S i) (S j) ↔ u = v.
Proof.
  intros Hu Hv Hij. unfold same_group. split.
  - intros (group & (key & _ & -> & _)%elem_of_group_duplicates & Hi & Hj).
    apply elem_of_rule_indices in Hi as [_ Hi], Hj as [_ Hj].
    simpl in Hi, Hj. rewrite Nat.sub_0_r in Hi, Hj. congruence.
  - intros <-. exists (rule_indices u V).
    assert (S i ∈ rule_indices u V ∧ S j ∈ rule_indices u V) as [Hi Hj].
    { rewrite !elem_of_rule_indices. simpl. rewrite !Nat.sub_0_r.
      split_and!; (lia || done). }
    split_and!; [|done..]. apply elem_of_group_duplicates.
    exists u. split_and!; [by eapply list_elem_of_lookup_2|done|].
    eapply two_members; [exact Hi|exact Hj|lia].
Qed.

(** C9: [group_duplicates] is deterministic. Any two complete runs of the
    function on the same vector collection return the same sequence of
    groups: the same groups, in the same order, with the same indices in
    the same order. *)
Theorem group_duplicates_deterministic V out1 out2 :
  returns V out1 → returns V out2 → out1 = out2.
Proof. intros ->%returns_inv ->%returns_inv. reflexivity. Qed.

(** C10: in every group [group_duplicates] emits, the rule indices are in
    strictly increasing order. The group lists the positions of one vector
    [v] of the input, and its first element is the position of the
    earliest occurrence of [v]. *)
Theorem group_duplicates_groups_increasing V group :
  group ∈ group_duplicates V →
  StronglySorted lt group
  ∧ ∃ v, (∀ n, n ∈ group ↔ 1 ≤ n ∧ V !! (n - 1) = Some v)
       ∧ ∃ first rest, group = S first :: rest
                       ∧ V !! first = Some v
                       ∧ ∀ j, V !! j = Some v → first ≤ j.
Proof.
  intros (key & _ & -> & Hlen)%elem_of_group_duplicates.
  pose proof (StronglySorted_rule_indices key V) as Hsorted.
  split; [done|]. exists key. split; [apply elem_of_rule_indices|].
  destruct (rule_indices key V) as [|n rest] eqn:Hgroup; simpl in Hlen; [lia|].
  assert (n ∈ rule_indices key V) as [Hn Hkey]%elem_of_rule_indices
    by (rewrite Hgroup; by left).
  destruct n as [|first]; [lia|]. simpl in Hkey. rewrite Nat.sub_0_r in Hkey.
  exists first, rest. split_and!; [done..|].
  intros j Hj.
  assert (S j ∈ rule_indices key V) as Hmem.
  { apply elem_of_rule_indices. simpl. rewrite Nat.sub_0_r. split; [lia|done]. }
  rewrite Hgroup in Hmem. apply elem_of_cons in Hmem as [Heq|Hrest]; [lia|].
  apply StronglySorted_inv in Hsorted as [_ Hall].
  rewrite Forall_forall in Hall. apply Hall in Hrest. lia.
Qed.

End grouper_facts.

(** ** The grouper on values of any kind *)

Section dynamic_grouper_facts.
Context {A : Type} `{EqDecision A}.
Implicit Types (V : list (list A)) (vectors : list (Dynamic.value A))
  (vec : list A) (d : list (list A * list nat))
  (items : list (nat * Dynamic.value A)).

Lemma hash_tuple_scalars vec :
  Dynamic.hash_tuple (Dynamic.Num <$> vec) = inr vec.
Proof. induction vec as [|a vec IH]; [done|]. csimpl. by rewrite IH. Qed.

Lemma hash_tuple_inv (key : list (Dynamic.value A)) :
  match Dynamic.hash_tuple key with
  | inr k => key = Dynamic.Num <$> k
  | inl e => e = Py.TypeError ∧ ∀ vec, key ≠ Dynamic.Num <$> vec
  end.
Proof.
  induction key as [|x key IH]; [done|]. simpl.
  destruct x as [a|items]; simpl.
  - destruct (Dynamic.hash_tuple key) as [e|k].
    + destruct IH as [-> IH]. split; [done|].
      intros [|b vec]; [done|]. intros [= _ Hkey]. by eapply IH.
    + by rewrite IH.
  - split; [done|]. by intros [|b vec].
Qed.

(** What one turn of the loop makes of a vector. *)
Lemma vector_cases (v : Dynamic.value A) :
  (∃ vec, v = Dynamic.of_vector vec)
  ∨ (¬ Dynamic.vector_of_scalars v
     ∧ match Dynamic.tuple v with
       | inl e => e = Py.TypeError
       | inr key => Dynamic.hash_tuple key = inl Py.TypeError
       end).
Proof.
  destruct v as [a|items].
  - right. split; [by intros [vec [=]]|done].
  - simpl. pose proof (hash_tuple_inv items) as Hkey.
    destruct (Dynamic.hash_tuple items) as [e|k].
    + destruct Hkey as [-> Hkey]. right. split; [|done].
      intros [vec [= Hvec]]. by eapply Hkey.
    + left. exists k. by rewrite Hkey.
Qed.

Lemma dynamic_bucket_loop_cons_scalars rule_num vec items d :
  Dynamic.bucket_loop ((rule_num, Dynamic.of_vector vec) :: items) d
  = Dynamic.bucket_loop items (setdefault_append d vec rule_num).
Proof. simpl. by rewrite hash_tuple_scalars. Qed.

Lemma dynamic_bucket_loop_scalars start V d :
  Dynamic.bucket_loop (Py.enumerate start (Dynamic.of_vector <$> V)) d
  = inr (bucket_loop start V d).
Proof.
  revert start d. induction V as [|vec V IH]; intros start d; [done|].
  change (Py.enumerate start (Dynamic.of_vector <$> vec :: V))
    with ((start, Dynamic.of_vector vec)
            :: Py.enumerate (S start) (Dynamic.of_vector <$> V)).
  rewrite dynamic_bucket_loop_cons_scalars, IH. reflexivity.
Qed.

Lemma dynamic_bucket_loop_type_error start vectors d :
  ¬ Forall Dynamic.vector_of_scalars vectors →
  Dynamic.bucket_loop (Py.enumerate start vectors) d = inl Py.TypeError.
Proof.
  revert start d. induction vectors as [|v vectors IH]; intros start d Hbad.
  - destruct Hbad. constructor.
  - change (Py.enumerate start (v :: vectors))
      with ((start, v) :: Py.enumerate (S start) vectors).
    destruct (vector_cases v) as [[vec ->]|[Hv Hraise]].
    + rewrite dynamic_bucket_loop_cons_scalars. apply IH.
      intros Hrest. apply Hbad. constructor; [by exists vec|done].
    + simpl. destruct (Dynamic.tuple v) as [e|key]; [by subst|].
      by rewrite Hraise.
Qed.

Lemma vectors_of_scalars vectors :
  Forall Dynamic.vector_of_scalars vectors → ∃ V, vectors = Dynamic.of_vector <$> V.
Proof.
  induction 1 as [|v vectors [vec ->] _ [V ->]]; [by exists []|].
  by exists (vec :: V).
Qed.

Lemma vectors_cases vectors :
  Forall Dynamic.vector_of_scalars vectors
  ∨ ¬ Forall Dynamic.vector_of_scalars vectors.
Proof.
  induction vectors as [|v vectors [IH|IH]].
  - left. constructor.
  - destruct (vector_cases v) as [[vec ->]|[Hv _]].
    + left. constructor; [by exists vec|done].
    + right. by intros [? _]%Forall_cons.
  - right. by intros [_ ?]%Forall_cons.
Qed.

Lemma of_vector_inj (vec1 vec2 : list A) :
  Dynamic.of_vector vec1 = Dynamic.of_vector vec2 → vec1 = vec2.
Proof.
  unfold Dynamic.of_vector. intros [= Heq]. revert vec2 Heq.
  induction vec1 as [|a vec1 IH]; intros [|b vec2] Heq; simplify_eq/=; [done|].
  f_equal. by apply IH.
Qed.

Lemma dynamic_group_duplicates_scalars V :
  Dynamic.group_duplicates (Dynamic.of_vector <$> V) = inr (group_duplicates V).
Proof.
  unfold Dynamic.group_duplicates. by rewrite dynamic_bucket_loop_scalars.
Qed.

Lemma dynamic_same_group_scalars V a b :
  Dynamic.same_group (Dynamic.group_duplicates (Dynamic.of_vector <$> V)) a b
  ↔ same_group V a b.
Proof.
  rewrite dynamic_group_duplicates_scalars. unfold Dynamic.same_group, same_group.
  split.
  - intros (groups & group & [= <-] & Hgroup). by exists group.
  - intros (group & Hgroup). by exists (group_duplicates V), group.
Qed.

(** C5, as amended: on a collection all of whose vectors are sequences of
    scalars, ragged or not, the call raises nothing and returns the groups
    of the collection; two vectors at distinct positions [i] and [j]
    (counted from 0, so that their rule indices are [i + 1] and [j + 1])
    are then placed in one group exactly when they have the same length
    and the same element at every position, equality of elements being
    exact, and vectors of different lengths are never grouped together.
    Malformed input does raise: as soon as one vector is not iterable, or
    holds an element that cannot be hashed, the call raises [TypeError] and
    returns no group. *)
Theorem group_duplicates_same_group_or_type_error vectors :
  ((∃ groups, Dynamic.group_duplicates vectors = inr groups)
   ↔ Forall Dynamic.vector_of_scalars vectors)
  ∧ (¬ Forall Dynamic.vector_of_scalars vectors →
     Dynamic.group_duplicates vectors = inl Py.TypeError)
  ∧ (∀ V, vectors = Dynamic.of_vector <$> V →
          Dynamic.group_duplicates vectors = inr (group_duplicates V))
  ∧ (Forall Dynamic.vector_of_scalars vectors →
     ∀ i j u v,
       vectors !! i = Some (Dynamic.of_vector u) →
       vectors !! j = Some (Dynamic.of_vector v) →
       i ≠ j →
       (Dynamic.same_group (Dynamic.group_duplicates vectors) (S i) (S j)
        ↔ length u = length v ∧ ∀ n, u !! n = v !! n)
       ∧ (length u ≠ length v →
          ¬ Dynamic.same_group (Dynamic.group_duplicates vectors) (S i) (S j))).
Proof.
  assert (¬ Forall Dynamic.vector_of_scalars vectors →
          Dynamic.group_duplicates vectors = inl Py.TypeError) as Hraise.
  { intros Hbad. unfold Dynamic.group_duplicates.
    by rewrite dynamic_bucket_loop_type_error. }
  split_and!.
  - split.
    + intros [groups Hgroups].
      destruct (vectors_cases vectors) as [Hall|Hbad]; [done|].
      by rewrite Hraise in Hgroups.
    + intros [V ->]%vectors_of_scalars. rewrite dynamic_group_duplicates_scalars.
      by eexists.
  - exact Hraise.
  - intros V ->. apply dynamic_group_duplicates_scalars.
  - intros [V ->]%vectors_of_scalars i j u v Hu Hv Hij.
    rewrite list_lookup_fmap in Hu, Hv.
    destruct (V !! i) as [u'|] eqn:Hi; [|done].
    destruct (V !! j) as [v'|] eqn:Hj; [|done].
    simpl in Hu, Hv.
    assert (u' = u) as -> by (apply of_vector_inj; congruence).
    assert (v' = v) as -> by (apply of_vector_inj; congruence).
    rewrite dynamic_same_group_scalars, (same_group_iff_equal V i j u v) by done.
    split.
    + split; [by intros ->|]. intros [_ Heq]. by apply list_eq.
    + intros Hlen ->. done.
Qed.

End dynamic_grouper_facts.

(** C5 fails as stated: the collection [[1, [2]]], whose one vector holds a
    list, and the collection [1, 2], whose vectors are not iterable, both
    make the call raise [TypeError]. *)
Lemma group_duplicates_type_error_counterexample :
  Dynamic.group_duplicates
    [Dynamic.List [Dynamic.Num 1%Z; Dynamic.List [Dynamic.Num 2%Z]]]
  = inl Py.TypeError
  ∧ Dynamic.group_duplicates [Dynamic.Num 1%Z; Dynamic.Num 2%Z] = inl Py.TypeError.
Proof. split; reflexivity. Qed.

Lemma group_duplicates_same_group_or_type_error_witness :
  Dynamic.same_group
    (Dynamic.group_duplicates (Dynamic.of_vector <$> [[1; 0]; [1]; [1; 0]]%Z)) 1 3
  ∧ ¬ Dynamic.same_group
        (Dynamic.group_duplicates (Dynamic.of_vector <$> [[1; 0]; [1]; [1; 0]]%Z)) 1 2.
Proof.
  assert (Forall Dynamic.vector_of_scalars
            (Dynamic.of_vector <$> [[1; 0]; [1]; [1; 0]]%Z)) as Hwf.
  { repeat (constructor; [by eexists|]). constructor. }
  pose proof (proj2 (proj2 (proj2 (group_duplicates_same_group_or_type_error
                (Dynamic.of_vector <$> [[1; 0]; [1]; [1; 0]]%Z)))) Hwf) as Hpairs.
  split.
  - apply (Hpairs 0 2 [1; 0]%Z [1; 0]%Z); [reflexivity|reflexivity|lia|].
    split; [reflexivity|done].
  - apply (Hpairs 0 1 [1; 0]%Z [1]%Z); [reflexivity|reflexivity|lia|]. simpl. lia.
Defined.

(** C4: the three worked examples of the grouper. The empty collection
    gives no group; in [[1,0],[1,0],[0,1]] rules 1 and 2 are grouped and the
    unique rule 3 is dropped; a collection without duplicates gives no
    group. *)
Theorem group_duplicates_examples :
  group_duplicates (A := Z) [] = []
  ∧ group_duplicates [[1; 0]; [1; 0]; [0; 1]]%Z = [[1; 2]]
  ∧ group_duplicates [[1; 0]; [0; 1]; [1; 1]]%Z = [].
Proof. split_and!; vm_compute; reflexivity. Qed.

Lemma group_duplicates_deterministic_witness :
  returns [[1; 0]; [1; 0]; [0; 1]]%Z [[1; 2]]
  ∧ group_duplicates [[1; 0]; [1; 0]; [0; 1]]%Z = [[1; 2]].
Proof.
  assert (returns [[1; 0]; [1; 0]; [0; 1]]%Z [[1; 2]]) as Hrun.
  { exists [([1; 0]%Z, [1; 2]); ([0; 1]%Z, [3])]. split; [|reflexivity].
    do 3 (eapply rtc_l; [constructor|]). apply rtc_refl. }
  split; [exact Hrun|].
  apply (group_duplicates_deterministic [[1; 0]; [1; 0]; [0; 1]]%Z);
    [apply returns_group_duplicates|exact Hrun].
Defined.

Lemma group_duplicates_groups_increasing_witness :
  StronglySorted lt [1; 3; 6]
  ∧ ∃ v, (∀ n, n ∈ [1; 3; 6] ↔
               1 ≤ n ∧ [[1; 0]; [0; 1]; [1; 0]; [0; 1]; [2]; [1; 0]]%Z !! (n - 1) = Some v)
       ∧ ∃ first rest, [1; 3; 6] = S first :: rest
           ∧ [[1; 0]; [0; 1]; [1; 0]; [0; 1]; [2]; [1; 0]]%Z !! first = Some v
           ∧ ∀ j, [[1; 0]; [0; 1]; [1; 0]; [0; 1]; [2]; [1; 0]]%Z !! j = Some v → first ≤ j.
Proof.
  apply (group_duplicates_groups_increasing
           [[1; 0]; [0; 1]; [1; 0]; [0; 1]; [2]; [1; 0]]%Z [1; 3; 6]).
  vm_compute. left.
Defined.

(** ** The encoder *)

Lemma string_app_empty_r (s : string) : s +:+ "" = s.
Proof.
  induction s as [|c s IH]; [reflexivity|].
  change (String c (s +:+ "") = String c s). by rewrite IH.
Qed.

Lemma string_length_app (s t : string) :
  String.length (s +:+ t) = String.length s + String.length t.
Proof.
  induction s as [|c s IH]; [reflexivity|].
  change (S (String.length (s +:+ t)) = S (String.length s + String.length t)).
  by rewrite IH.
Qed.

Lemma join_empty_sep (l : list string) :
  Py.join "" l = foldr String.append ""%string l.
Proof.
  induction l as [|s l IH]; [reflexivity|].
  destruct l as [|t l].
  - simpl. by rewrite string_app_empty_r.
  - change (Py.join "" (s :: t :: l)) with (s +:+ "" +:+ Py.join "" (t :: l)).
    rewrite IH. reflexivity.
Qed.

Lemma state_to_binary_string_cons x state :
  state_to_binary_string (x :: state) = Py.str x +:+ state_to_binary_string state.
Proof. unfold state_to_binary_string. by rewrite !join_empty_sep. Qed.

(** C6: on every sequence of integers the encoder returns the texts of the
    elements, in order, put end to end with nothing between them; it checks
    nothing, so that [0,2,1] gives "021"; on a sequence of 0s and 1s the
    result is as long as the sequence; and [0,1,0,1] gives "0101". *)
Theorem state_to_binary_string_concatenation :
  (∀ state, state_to_binary_string state
            = foldr (λ digit rest, Py.str digit +:+ rest) ""%string state)
  ∧ state_to_binary_string [0; 2; 1]%Z = "021"%string
  ∧ (∀ state, Forall (λ digit, digit = 0%Z ∨ digit = 1%Z) state →
              String.length (state_to_binary_string state) = length state)
  ∧ state_to_binary_string [0; 1; 0; 1]%Z = "0101"%string.
Proof.
  split_and!; [|reflexivity| |reflexivity].
  - intros state. induction state as [|x state IH]; [reflexivity|].
    rewrite state_to_binary_string_cons, IH. reflexivity.
  - intros state Hbin. induction Hbin as [|x state Hx Hbin IH]; [reflexivity|].
    rewrite state_to_binary_string_cons, string_length_app, IH.
    destruct Hx as [-> | ->]; reflexivity.
Qed.

Lemma state_to_binary_string_concatenation_witness :
  String.length (state_to_binary_string [0; 1; 1]%Z) = 3.
Proof.
  apply (proj1 (proj2 (proj2 state_to_binary_string_concatenation)) [0; 1; 1]%Z).
  repeat (constructor; [auto|]). constructor.
Defined.

(** ** The summary builder *)

Section summary_facts.
Context {A : Type} `{EqDecision A}.
Implicit Types (inits : list (list Z)) (σ : pd_options)
  (results : list (gmap string (list (list A)))) (stats : list summary_row).

(** One turn of the loop. *)
Lemma summary_loop_cons idx init items results stats σ :
  summary_loop ((idx, init) :: items) results stats σ
  = match results !! idx with
    | None => (σ, inl Py.IndexError)
    | Some result =>
        match result !! "frequency_vectors"%string with
        | None => (σ, inl (Py.KeyError "frequency_vectors"))
        | Some freq_vectors =>
            summary_loop items results (stats ++ [summary_record init freq_vectors]) σ
        end
    end.
Proof.
  simpl. unfold mbind, M_bind, getitem, getkey.
  destruct (results !! idx) as [result|]; simpl; [|reflexivity].
  destruct (result !! "frequency_vectors"%string); reflexivity.
Qed.

(** The loop neither reads nor writes the option table. *)
Lemma summary_loop_frame items results stats σ :
  summary_loop items results stats σ
  = (σ, (summary_loop items results stats ∅).2).
Proof.
  revert stats. induction items as [|[idx init] items IH]; intros stats.
  - reflexivity.
  - rewrite !summary_loop_cons.
    destruct (results !! idx) as [result|]; [|reflexivity].
    destruct (result !! "frequency_vectors"%string); [apply IH|reflexivity].
Qed.

(** The rows appended when every index has a result with its vectors. *)
Lemma summary_loop_rows inits start results stats σ :
  (∀ i, i < length inits →
        ∃ result, results !! (start + i) = Some result ∧ has_frequency_vectors result) →
  ∃ rows,
    summary_loop (Py.enumerate start inits) results stats σ = (σ, inr (stats ++ rows))
    ∧ length rows = length inits
    ∧ ∀ i init result freq_vectors,
        inits !! i = Some init →
        results !! (start + i) = Some result →
        result !! "frequency_vectors"%string = Some freq_vectors →
        rows !! i = Some (summary_record init freq_vectors).
Proof.
  revert start stats.
  induction inits as [|init inits IH]; intros start stats Hres.
  - exists []. split_and!; [by rewrite app_nil_r|done|done].
  - destruct (Hres 0) as (result & Hresult & [fv Hfv]); [simpl; lia|].
    rewrite Nat.add_0_r in Hresult.
    destruct (IH (S start) (stats ++ [summary_record init fv]))
      as (rows & Hloop & Hlen & Hrows).
    { intros i Hi. destruct (Hres (S i)) as (r & Hr & Hf); [simpl; lia|].
      exists r. split; [|done]. by replace (S start + i) with (start + S i) by lia. }
    exists (summary_record init fv :: rows). split_and!.
    + change (Py.enumerate start (init :: inits))
        with ((start, init) :: Py.enumerate (S start) inits).
      rewrite summary_loop_cons, Hresult, Hfv, Hloop, <- app_assoc. reflexivity.
    + simpl. by rewrite Hlen.
    + intros [|i] init' r fv' Hinit Hr Hfv'; simpl in *.
      * rewrite Nat.add_0_r in Hr. congruence.
      * apply (Hrows i init' r fv'); [done| |done].
        rewrite <- Hr. f_equal. lia.
Qed.

(** The loop stops with [IndexError] at the first index without a
    result. *)
Lemma summary_loop_index_error inits start results stats σ :
  Forall has_frequency_vectors results →
  start ≤ length results → length results < start + length inits →
  summary_loop (Py.enumerate start inits) results stats σ = (σ, inl Py.IndexError).
Proof.
  intros Hfields. revert start stats.
  induction inits as [|init inits IH]; intros start stats Hle Hlt; simpl in Hlt; [lia|].
  change (Py.enumerate start (init :: inits))
    with ((start, init) :: Py.enumerate (S start) inits).
  rewrite summary_loop_cons.
  destruct (results !! start) as [result|] eqn:Hresult; [|reflexivity].
  destruct (proj1 (Forall_lookup _ _) Hfields _ _ Hresult) as [fv ->].
  apply lookup_lt_Some in Hresult. apply IH; lia.
Qed.

(** The loop never looks past the last index it enumerates. *)
Lemma summary_loop_take inits start results stats σ :
  summary_loop (Py.enumerate start inits) results stats σ
  = summary_loop (Py.enumerate start inits)
      (take (start + length inits) results) stats σ.
Proof.
  revert start stats. induction inits as [|init inits IH]; intros start stats.
  - reflexivity.
  - change (Py.enumerate start (init :: inits))
      with ((start, init) :: Py.enumerate (S start) inits).
    rewrite !summary_loop_cons, lookup_take_lt by (simpl; lia).
    destruct (results !! start) as [result|]; [|reflexivity].
    destruct (result !! "frequency_vectors"%string); [|reflexivity].
    rewrite IH. do 2 f_equal. simpl. f_equal. lia.
Qed.

Lemma create_summary_table_unfold inits results σ :
  create_summary_table inits results σ
  = match (summary_loop (Py.enumerate 0 inits) results [] ∅).2 with
    | inl e => (σ, inl e)
    | inr stats => (<["max_colwidth"%string := 50%Z]> σ, inr stats)
    end.
Proof.
  unfold create_summary_table, mbind, M_bind.
  rewrite summary_loop_frame.
  by destruct (summary_loop (Py.enumerate 0 inits) results [] ∅).2.
Qed.

Lemma create_summary_table_rows inits results σ :
  length inits ≤ length results →
  Forall has_frequency_vectors (take (length inits) results) →
  ∃ table,
    create_summary_table inits results σ
    = (<["max_colwidth"%string := 50%Z]> σ, inr table)
    ∧ length table = length inits
    ∧ ∀ i init result freq_vectors,
        inits !! i = Some init →
        results !! i = Some result →
        result !! "frequency_vectors"%string = Some freq_vectors →
        table !! i = Some (summary_record init freq_vectors).
Proof.
  intros Hlen Hfields.
  destruct (summary_loop_rows inits 0 results [] ∅) as (rows & Hloop & Hrows).
  { intros i Hi. simpl.
    destruct (lookup_lt_is_Some_2 results i) as [result Hresult]; [lia|].
    exists result. split; [done|].
    eapply (proj1 (Forall_lookup _ _) Hfields i).
    by rewrite lookup_take_lt. }
  exists rows. split; [|exact Hrows].
  by rewrite create_summary_table_unfold, Hloop.
Qed.

(** ** The claims on the summary builder *)

(** C2, as amended: the builder pairs by index, not by zipping. When
    [all_results] is shorter than [init_states] (and every result present
    carries its frequency vectors) the call raises [IndexError] at the
    first initial state without a result: no table is returned and no
    option is set. Results beyond [len(init_states)] are never looked at:
    the call behaves as on the first [len(init_states)] results, and when
    those carry their frequency vectors it returns one row per initial
    state. *)
Theorem create_summary_table_length_mismatch inits results σ :
  (length results < length inits →
   Forall has_frequency_vectors results →
   create_summary_table inits results σ = (σ, inl Py.IndexError))
  ∧ create_summary_table inits results σ
    = create_summary_table inits (take (length inits) results) σ
  ∧ (length inits ≤ length results →
     Forall has_frequency_vectors (take (length inits) results) →
     ∃ table, (create_summary_table inits results σ).2 = inr table
              ∧ length table = length inits).
Proof.
  split_and!.
  - intros Hlt Hfields. rewrite create_summary_table_unfold.
    rewrite summary_loop_index_error by (done || simpl; lia). reflexivity.
  - rewrite !create_summary_table_unfold.
    by rewrite (summary_loop_take inits 0 results).
  - intros Hle Hfields.
    destruct (create_summary_table_rows inits results σ Hle Hfields)
      as (table & Heq & Hlen & _).
    exists table. by rewrite Heq.
Qed.

(** C7: when [init_states] and [all_results] have the same length (each
    result carrying its frequency vectors), the table has one row per
    initial state, in the order of [init_states]; row [i] is labelled with
    the encoding of [init_states[i]], its groups are [group_duplicates] of
    the frequency vectors of [all_results[i]], and its group count is the
    number of those groups. *)
Theorem create_summary_table_rows_aligned inits results σ :
  length inits = length results →
  Forall has_frequency_vectors results →
  ∃ table,
    (create_summary_table inits results σ).2 = inr table
    ∧ length table = length inits
    ∧ ∀ i, i < length inits →
        ∃ init result freq_vectors row,
          inits !! i = Some init
          ∧ results !! i = Some result
          ∧ result !! "frequency_vectors"%string = Some freq_vectors
          ∧ table !! i = Some row
          ∧ Initial_State row = state_to_binary_string init
          ∧ Duplicate_Groups row = group_duplicates freq_vectors
          ∧ Group_Count row = length (Duplicate_Groups row).
Proof.
  intros Hlen Hfields.
  destruct (create_summary_table_rows inits results σ) as (table & Heq & Hrows & Hrow).
  { lia. }
  { by rewrite Hlen, firstn_all. }
  exists table. split_and!; [by rewrite Heq|done|].
  intros i Hi.
  destruct (lookup_lt_is_Some_2 inits i) as [init Hinit]; [done|].
  destruct (lookup_lt_is_Some_2 results i) as [result Hresult]; [lia|].
  destruct (proj1 (Forall_lookup _ _) Hfields _ _ Hresult) as [fv Hfv].
  exists init, result, fv, (summary_record init fv).
  split_and!; try done. by eapply Hrow.
Qed.

(** C8, as amended: the builder reads no global state, for the table or
    exception it produces does not depend on the pandas options; its one
    effect on global state is that a call that completes sets the
    process-wide option [max_colwidth] to 50 and leaves every other option
    as it was, while a call that raises changes no option. The inputs are
    values the function only reads. *)
Theorem create_summary_table_effect inits results σ :
  (create_summary_table inits results σ).2 = (create_summary_table inits results ∅).2
  ∧ (create_summary_table inits results σ).1
    = match (create_summary_table inits results σ).2 with
      | inr _ => <["max_colwidth"%string := 50%Z]> σ
      | inl _ => σ
      end.
Proof.
  rewrite !create_summary_table_unfold.
  by destruct (summary_loop (Py.enumerate 0 inits) results [] ∅).2.
Qed.

End summary_facts.

(** C2 fails as stated: with one initial state and no result the call does
    not return the empty, truncated table; it raises [IndexError]. *)
Lemma create_summary_table_truncation_counterexample :
  create_summary_table (A := Z) [[0]%Z] [] ∅ = (∅, inl Py.IndexError)
  ∧ ¬ ∃ table, (create_summary_table (A := Z) [[0]%Z] [] ∅).2 = inr table.
Proof. split; [reflexivity|]. intros [table Htable]. discriminate Htable. Qed.

Lemma create_summary_table_length_mismatch_witness :
  create_summary_table (A := Z) [[0]; [1]]%Z [ {["frequency_vectors"%string := [[1]; [1]]%Z]} ] ∅
  = (∅, inl Py.IndexError)
  ∧ ∃ table,
      (create_summary_table (A := Z) [[0]]%Z
         [ {["frequency_vectors"%string := [[1]; [1]]%Z]}; ∅ ] ∅).2 = inr table
      ∧ length table = 1.
Proof.
  split.
  - apply (proj1 (create_summary_table_length_mismatch (A := Z) [[0]; [1]]%Z
         [ {["frequency_vectors"%string := [[1]; [1]]%Z]} ] ∅)); [simpl; lia|].
    repeat constructor. by eexists.
  - apply (proj2 (proj2 (create_summary_table_length_mismatch (A := Z) [[0]]%Z
         [ {["frequency_vectors"%string := [[1]; [1]]%Z]}; ∅ ] ∅)));
      [simpl; lia|].
    repeat constructor. by eexists.
Defined.

Lemma create_summary_table_rows_aligned_witness :
  ∃ table,
    (create_summary_table (A := Z) [[0; 1]; [1; 1]]%Z
       [ {["frequency_vectors"%string := [[1; 0]; [1; 0]; [0; 1]]%Z]};
         {["frequency_vectors"%string := [[1]; [2]]%Z]} ] ∅).2 = inr table
    ∧ length table = 2.
Proof.
  destruct (create_summary_table_rows_aligned (A := Z) [[0; 1]; [1; 1]]%Z
       [ {["frequency_vectors"%string := [[1; 0]; [1; 0]; [0; 1]]%Z]};
         {["frequency_vectors"%string := [[1]; [2]]%Z]} ] ∅)
    as (table & Htable & Hlen & _).
  - reflexivity.
  - repeat constructor; by eexists.
  - exists table. split; [exact Htable|exact Hlen].
Defined.

(** C8 fails as stated: a caller that had set [max_colwidth] to 100 finds it
    at 50 after the call. *)
Lemma create_summary_table_global_state_counterexample :
  (create_summary_table (A := Z) [] [] {["max_colwidth"%string := 100%Z]}).1
    !! "max_colwidth"%string = Some 50%Z
  ∧ (create_summary_table (A := Z) [] [] {["max_colwidth"%string := 100%Z]}).1
    ≠ {["max_colwidth"%string := 100%Z]}.
Proof.
  split; [reflexivity|].
  intros Heq. apply (f_equal (λ σ : pd_options, σ !! "max_colwidth"%string)) in Heq.
  vm_compute in Heq. discriminate Heq.
Qed.

(** * Further properties of the grouper *)

Section grouper_more.
Context {A : Type} `{EqDecision A}.
Implicit Types (V : list (list A)) (key v : list A) (d : @groups_dict A).

Lemma other_member (l : list nat) x :
  NoDup l → 2 ≤ length l → x ∈ l → ∃ y, y ∈ l ∧ y ≠ x.
Proof.
  destruct l as [|a [|b l]]; simpl; intros Hnd Hlen Hx; [lia..|].
  apply NoDup_cons in Hnd as [Hab _].
  destruct (decide (a = x)) as [->|Hne].
  - exists b. split; [by right; left|]. intros ->. apply Hab. by left.
  - exists a. split; [by left|done].
Qed.

Lemma elem_of_rule_indices_S key V i :
  S i ∈ rule_indices key V ↔ V !! i = Some key.
Proof.
  rewrite elem_of_rule_indices. simpl. rewrite Nat.sub_0_r.
  split; [by intros [_ ?]|]. intros ?. split; [lia|done].
Qed.

Lemma reported_has_duplicate V n :
  n ∈ concat (group_duplicates V) →
  ∃ i j v, n = S i ∧ i ≠ j ∧ V !! i = Some v ∧ V !! j = Some v.
Proof.
  intros (group & (key & _ & -> & Hlen)%elem_of_group_duplicates & Hn)%elem_of_concat.
  destruct (other_member _ n (NoDup_rule_indices key V) Hlen Hn) as (m & Hm & Hne).
  pose proof Hn as [Hn1 _]%elem_of_rule_indices.
  pose proof Hm as [Hm1 _]%elem_of_rule_indices.
  destruct n as [|i]; [lia|]. destruct m as [|j]; [lia|].
  apply elem_of_rule_indices_S in Hn, Hm.
  exists i, j, key. split_and!; [done|congruence|done..].
Qed.

Lemma duplicate_is_reported V i j v :
  i ≠ j → V !! i = Some v → V !! j = Some v → S i ∈ concat (group_duplicates V).
Proof.
  intros Hij Hi Hj. apply elem_of_concat.
  exists (rule_indices v V). split; [|by apply elem_of_rule_indices_S].
  apply elem_of_group_duplicates. exists v.
  split_and!; [by eapply list_elem_of_lookup_2|done|].
  apply (two_members _ (S i) (S j)); [by apply elem_of_rule_indices_S..|lia].
Qed.

(** X1: a rule index is reported exactly when the vector at its position occurs
    at some other position as well. *)
Theorem group_duplicates_reports_iff V n :
  n ∈ concat (group_duplicates V)
  ↔ ∃ i j v, n = S i ∧ i ≠ j ∧ V !! i = Some v ∧ V !! j = Some v.
Proof.
  split; [apply reported_has_duplicate|].
  intros (i & j & v & -> & Hij & Hi & Hj). by eapply duplicate_is_reported.
Qed.

(** X2: no group is returned exactly when the vectors are pairwise distinct. *)
Theorem group_duplicates_nil_iff V :
  group_duplicates V = [] ↔ NoDup V.
Proof.
  rewrite NoDup_alt. split.
  - intros Hnil i j v Hi Hj. destruct (decide (i = j)) as [|Hij]; [done|].
    pose proof (duplicate_is_reported V i j v Hij Hi Hj) as Hmem.
    rewrite Hnil in Hmem. by apply not_elem_of_nil in Hmem.
  - intros Hinj. destruct (group_duplicates V) as [|group groups] eqn:Hgroups; [done|].
    assert (group ∈ group_duplicates V) as Hgroup by (rewrite Hgroups; by left).
    pose proof Hgroup as (key & _ & _ & Hlen)%elem_of_group_duplicates.
    destruct group as [|n group]; [simpl in Hlen; lia|].
    assert (n ∈ concat (group_duplicates V)) as Hn.
    { apply elem_of_concat. exists (n :: group). split; [done|by left]. }
    apply reported_has_duplicate in Hn as (i & j & v & _ & Hij & Hi & Hj).
    by destruct (Hij (Hinj i j v Hi Hj)).
Qed.

Lemma length_concat_ge {B} (ls : list (list B)) k :
  Forall (λ l, k ≤ length l) ls → k * length ls ≤ length (concat ls).
Proof.
  induction 1 as [|l ls Hl _ IH]; simpl; [lia|]. rewrite length_app. lia.
Qed.

Lemma group_sizes_ge_2 V : Forall (λ group, 2 ≤ length group) (group_duplicates V).
Proof.
  apply Forall_forall. by intros group (key & _ & _ & Hlen)%elem_of_group_duplicates.
Qed.

Lemma length_reported_le V : length (concat (group_duplicates V)) ≤ length V.
Proof.
  trans (length (seq 1 (length V))); [|by rewrite length_seq].
  apply submseteq_length, NoDup_submseteq.
  - apply NoDup_concat_group_duplicates.
  - intros n (group & (key & _ & -> & _)%elem_of_group_duplicates & Hn)%elem_of_concat.
    apply rule_indices_range in Hn. apply elem_of_seq. lia.
Qed.

(** X3: among [n] vectors at most [n / 2] groups are found: twice the number of
    groups is at most the number of rule indices reported, which is at most
    the number of vectors. *)
Theorem group_duplicates_count_bound V :
  2 * length (group_duplicates V) ≤ length (concat (group_duplicates V))
  ∧ length (concat (group_duplicates V)) ≤ length V.
Proof.
  split; [apply length_concat_ge, group_sizes_ge_2|apply length_reported_le].
Qed.

(** *** The dictionary before the comprehension *)

Lemma setdefault_append_keys d key n :
  (setdefault_append d key n).*1
  = d.*1 ++ (if decide (key ∈ d.*1) then [] else [key]).
Proof.
  induction d as [|[k group] d IH]; csimpl; [done|].
  destruct (decide (k = key)) as [->|Hne]; csimpl.
  - rewrite decide_True by (by left). by rewrite app_nil_r.
  - rewrite IH. f_equal. f_equal.
    destruct (decide (key ∈ d.*1)) as [Hin|Hin].
    + rewrite decide_True by (by right). done.
    + rewrite decide_False by (rewrite elem_of_cons; naive_solver). done.
Qed.

Lemma setdefault_append_members d key n :
  concat (values (setdefault_append d key n)) ≡ₚ n :: concat (values d).
Proof.
  induction d as [|[k group] d IH]; simpl; [done|].
  destruct (decide (k = key)) as [->|Hne]; simpl.
  - rewrite <- app_assoc. simpl. by rewrite <- Permutation_middle.
  - unfold values in IH. rewrite IH. by rewrite <- Permutation_middle.
Qed.

Lemma setdefault_append_NoDup_keys d key n :
  NoDup d.*1 → NoDup (setdefault_append d key n).*1.
Proof.
  intros Hnd. rewrite setdefault_append_keys.
  destruct (decide (key ∈ d.*1)); [by rewrite app_nil_r|].
  apply NoDup_app. split_and!; [done| |apply NoDup_singleton].
  intros k Hk ->%list_elem_of_singleton. done.
Qed.

Lemma bucket_loop_members start V d :
  concat (values (bucket_loop start V d)) ≡ₚ concat (values d) ++ seq start (length V).
Proof.
  revert start d. induction V as [|v V IH]; intros start d; simpl.
  - by rewrite app_nil_r.
  - unfold bucket_loop in *. simpl. rewrite IH.
    rewrite setdefault_append_members. simpl. by rewrite <- Permutation_middle.
Qed.

Lemma bucket_loop_NoDup_keys start V d :
  NoDup d.*1 → NoDup (bucket_loop start V d).*1.
Proof.
  revert start d. induction V as [|v V IH]; intros start d Hnd; [done|].
  unfold bucket_loop in *. simpl. apply IH.
  by apply setdefault_append_NoDup_keys.
Qed.

(** X4: whatever dictionary the loop starts from, it keeps the keys pairwise
    distinct and files every rule number it enumerates under exactly one
    key: the buckets of the final dictionary hold the old members and the
    numbers [start .. start + len - 1], each once. For the call itself
    ([start = 1], empty dictionary) the buckets partition [1 .. len]. *)
Theorem bucket_loop_partitions start V d :
  (NoDup d.*1 → NoDup (bucket_loop start V d).*1)
  ∧ concat (values (bucket_loop start V d)) ≡ₚ concat (values d) ++ seq start (length V)
  ∧ concat (values (bucket_loop 1 V [])) ≡ₚ seq 1 (length V).
Proof.
  split_and!.
  - apply bucket_loop_NoDup_keys.
  - apply bucket_loop_members.
  - by rewrite bucket_loop_members.
Qed.

(** *** Growing the input *)

Lemma rule_indices_app key V W :
  ∃ tail, rule_indices key (V ++ W) = rule_indices key V ++ tail
          ∧ Forall (λ n, length V < n) tail.
Proof.
  unfold rule_indices. rewrite length_app, seq_app, filter_app.
  eexists. split.
  - f_equal. apply filter_ext_elem_of. intros i [Hi1 Hi2]%elem_of_seq.
    by rewrite lookup_app_l by lia.
  - apply Forall_forall. intros n [_ Hn%elem_of_seq]%list_elem_of_filter. lia.
Qed.

(** X5: vectors added at the end never break up or reorder a group already
    found: each group of [V] reappears in the result for [V ++ W], possibly
    extended by rule indices beyond [len(V)]. *)
Theorem group_duplicates_app_extends V W group :
  group ∈ group_duplicates V →
  ∃ tail, group ++ tail ∈ group_duplicates (V ++ W)
          ∧ Forall (λ n, length V < n) tail.
Proof.
  intros (key & Hkey & -> & Hlen)%elem_of_group_duplicates.
  destruct (rule_indices_app key V W) as (tail & Happ & Htail).
  exists tail. split; [|done]. apply elem_of_group_duplicates.
  exists key. split_and!.
  - apply elem_of_app. by left.
  - done.
  - rewrite length_app. lia.
Qed.

(** X6: a vector not seen before changes nothing: the result for [V ++ [v]] is
    the result for [V]. *)
Theorem group_duplicates_snoc_fresh V v :
  v ∉ V → group_duplicates (V ++ [v]) = group_duplicates V.
Proof.
  intros Hfresh. rewrite !group_duplicates_buckets. unfold buckets.
  rewrite first_seen_snoc, decide_False, map_app, filter_app by done.
  simpl. rewrite rule_indices_snoc, rule_indices_absent, decide_True by done.
  simpl. rewrite filter_cons_False, filter_nil, app_nil_r by (simpl; lia).
  f_equal. apply map_ext_in. intros key Hkey%list_elem_of_In.
  apply (proj1 (elem_of_first_seen V key)) in Hkey.
  rewrite rule_indices_snoc, decide_False, app_nil_r; [done|].
  by intros ->.
Qed.

(** *** Identical vectors *)

Lemma first_seen_replicate n v : first_seen (replicate (S n) v) = [v].
Proof.
  induction n as [|n IH]; [done|].
  change (first_seen (replicate (S (S n)) v))
    with (v :: filter (λ k, k ≠ v) (first_seen (replicate (S n) v))).
  rewrite IH, filter_cons_False, filter_nil by naive_solver. done.
Qed.

Lemma filter_Forall {B} (P : B → Prop) `{!∀ x, Decision (P x)} (l : list B) :
  Forall P l → filter P l = l.
Proof.
  induction 1 as [|x l Hx _ IH]; [done|]. by rewrite filter_cons_True, IH.
Qed.

Lemma rule_indices_replicate n v : rule_indices v (replicate n v) = seq 1 n.
Proof.
  unfold rule_indices. rewrite length_replicate.
  apply filter_Forall, Forall_forall. intros i [Hi1 Hi2]%elem_of_seq.
  apply lookup_replicate_2. lia.
Qed.

(** X7: when all [n] vectors are the same, one group holds every rule, if there
    are at least two; a single vector or none gives no group. *)
Theorem group_duplicates_replicate n v :
  group_duplicates (replicate n v) = if decide (2 ≤ n) then [seq 1 n] else [].
Proof.
  rewrite group_duplicates_buckets. unfold buckets.
  destruct n as [|n]; [done|].
  rewrite first_seen_replicate. cbn [map]. rewrite rule_indices_replicate.
  rewrite filter_cons, filter_nil, length_seq.
  destruct (decide (2 ≤ S n)); done.
Qed.

End grouper_more.

(** *** Renaming the vectors *)

Section grouper_relabel.
Context {A B : Type} `{EqDecision A} `{EqDecision B}.
Context (g : list A → list B) `{!Inj (=) (=) g}.

Lemma filter_fmap {C D} (f : C → D) (P : D → Prop) `{!∀ y, Decision (P y)}
    (l : list C) :
  filter P (f <$> l) = f <$> filter (λ x, P (f x)) l.
Proof.
  induction l as [|x l IH]; [done|]. csimpl.
  rewrite !filter_cons, IH. by destruct (decide (P (f x))).
Qed.

Lemma first_seen_fmap (V : list (list A)) :
  first_seen (g <$> V) = g <$> first_seen V.
Proof.
  induction V as [|v V IH]; [done|]. csimpl. f_equal.
  rewrite IH, filter_fmap. f_equal.
  apply list_filter_iff. intros k. split; [naive_solver|].
  intros Hne Heq. by apply Hne, (inj g).
Qed.

Lemma rule_indices_fmap key (V : list (list A)) :
  rule_indices (g key) (g <$> V) = rule_indices key V.
Proof.
  unfold rule_indices. rewrite length_fmap.
  apply list_filter_iff. intros i. rewrite list_lookup_fmap.
  destruct (V !! (i - 1)) as [v|]; simpl; [|naive_solver].
  split; [intros [= Heq]; f_equal; by apply (inj g)|by intros [= ->]].
Qed.

(** X8: the grouping depends on the vectors only through which of them are
    equal: replacing every vector by its image under an injective function
    (a change of unit, a relabelling of the values) gives the same groups. *)
Theorem group_duplicates_injective_image (V : list (list A)) :
  group_duplicates (g <$> V) = group_duplicates V.
Proof.
  rewrite !group_duplicates_buckets. f_equal. unfold buckets.
  rewrite first_seen_fmap. change map with (@fmap list _).
  rewrite <- list_fmap_compose. apply list_fmap_ext.
  intros _ key _. apply rule_indices_fmap.
Qed.

End grouper_relabel.

(** * Further properties of the encoder *)

Lemma string_app_assoc (s t u : string) : (s +:+ t) +:+ u = s +:+ t +:+ u.
Proof.
  induction s as [|c s IH]; [reflexivity|].
  change (String c ((s +:+ t) +:+ u) = String c (s +:+ t +:+ u)). by rewrite IH.
Qed.

(** X9: the label of a concatenation of states is the concatenation of their
    labels. *)
Theorem state_to_binary_string_app (state1 state2 : list Z) :
  state_to_binary_string (state1 ++ state2)
  = state_to_binary_string state1 +:+ state_to_binary_string state2.
Proof.
  induction state1 as [|x state1 IH]; [reflexivity|].
  change ((x :: state1) ++ state2) with (x :: (state1 ++ state2)).
  rewrite !state_to_binary_string_cons, IH, string_app_assoc. reflexivity.
Qed.

Lemma str_nonempty (z : Z) : 1 ≤ String.length (Py.str z).
Proof.
  unfold Py.str, NilZero.string_of_int, NilZero.string_of_uint.
  destruct (Z.to_int z) as [d|d]; destruct d; simpl; lia.
Qed.

(** X10: the label has at least one character per element of the state, and it
    is empty only for the empty state. *)
Theorem state_to_binary_string_length_ge (state : list Z) :
  length state ≤ String.length (state_to_binary_string state)
  ∧ (state_to_binary_string state = ""%string ↔ state = []).
Proof.
  assert (length state ≤ String.length (state_to_binary_string state)) as Hlen.
  { induction state as [|x state IH]; [done|].
    rewrite state_to_binary_string_cons, string_length_app. simpl.
    pose proof (str_nonempty x). lia. }
  split; [done|]. split; [|by intros ->].
  intros Hempty. rewrite Hempty in Hlen. destruct state; [done|simpl in Hlen; lia].
Qed.

Lemma str_digit (x : Z) :
  (0 ≤ x ≤ 9)%Z →
  Py.str x = String (Ascii.ascii_of_nat (48 + Z.to_nat x)) EmptyString.
Proof.
  intros Hx.
  assert (x = 0 ∨ x = 1 ∨ x = 2 ∨ x = 3 ∨ x = 4 ∨ x = 5 ∨ x = 6 ∨ x = 7
          ∨ x = 8 ∨ x = 9)%Z as Hcases by lia.
  repeat destruct Hcases as [-> | Hcases]; try subst x; reflexivity.
Qed.

Lemma state_to_binary_string_digit_cons x state :
  (0 ≤ x ≤ 9)%Z →
  state_to_binary_string (x :: state)
  = String (Ascii.ascii_of_nat (48 + Z.to_nat x)) (state_to_binary_string state).
Proof.
  intros Hx. by rewrite state_to_binary_string_cons, str_digit.
Qed.

(** X11: on states made of single decimal digits, and so on binary states, the
    label determines the state: different states get different labels, and
    the label has one character per digit. *)
Theorem state_to_binary_string_digits_injective (state1 state2 : list Z) :
  Forall (λ x, 0 ≤ x ≤ 9)%Z state1 →
  Forall (λ x, 0 ≤ x ≤ 9)%Z state2 →
  (state_to_binary_string state1 = state_to_binary_string state2 → state1 = state2)
  ∧ String.length (state_to_binary_string state1) = length state1.
Proof.
  intros Hd1 Hd2. split.
  - revert state2 Hd2.
    induction Hd1 as [|x state1 Hx Hd1 IH]; intros state2 Hd2 Heq.
    + destruct Hd2 as [|y state2 Hy Hd2]; [done|].
      rewrite state_to_binary_string_digit_cons in Heq by done. discriminate Heq.
    + destruct Hd2 as [|y state2 Hy Hd2];
        rewrite !state_to_binary_string_digit_cons in Heq by done;
        [discriminate Heq|].
      injection Heq as Hchar Hrest.
      apply (f_equal Ascii.nat_of_ascii) in Hchar.
      rewrite !Ascii.nat_ascii_embedding in Hchar by lia.
      f_equal; [lia|]. by apply IH.
  - induction Hd1 as [|x state1 Hx Hd1 IH]; [done|].
    rewrite state_to_binary_string_digit_cons by done. simpl. by rewrite IH.
Qed.

Lemma state_to_binary_string_digits_injective_witness :
  String.length (state_to_binary_string [0; 1; 9]%Z) = 3.
Proof.
  apply (state_to_binary_string_digits_injective [0; 1; 9]%Z [0; 1; 9]%Z);
    repeat (constructor; [lia|]); constructor.
Defined.

(** * Further properties of the summary builder *)

Section summary_more.
Context {A : Type} `{EqDecision A}.
Implicit Types (inits : list (list Z)) (σ : pd_options)
  (results : list (gmap string (list (list A)))) (stats : list summary_row).

(** The rows already recorded are kept in front of the new ones. *)
Lemma summary_loop_stats items results stats σ :
  (summary_loop items results stats σ).2
  = match (summary_loop items results [] σ).2 with
    | inr rows => inr (stats ++ rows)
    | inl e => inl e
    end.
Proof.
  revert stats. induction items as [|[idx init] items IH]; intros stats.
  - simpl. by rewrite app_nil_r.
  - rewrite !summary_loop_cons.
    destruct (results !! idx) as [result|]; [|reflexivity].
    destruct (result !! "frequency_vectors"%string) as [fv|]; [|reflexivity].
    rewrite (IH (stats ++ _)), (IH ([] ++ _)).
    destruct (summary_loop items results [] σ).2; [reflexivity|].
    by rewrite <- app_assoc.
Qed.

Lemma summary_loop_items_app items1 items2 results stats σ :
  (summary_loop (items1 ++ items2) results stats σ).2
  = match (summary_loop items1 results stats σ).2 with
    | inr stats' => (summary_loop items2 results stats' σ).2
    | inl e => inl e
    end.
Proof.
  revert stats. induction items1 as [|[idx init] items1 IH]; intros stats.
  - reflexivity.
  - change (((idx, init) :: items1) ++ items2) with ((idx, init) :: (items1 ++ items2)).
    rewrite !summary_loop_cons.
    destruct (results !! idx) as [result|]; [|reflexivity].
    destruct (result !! "frequency_vectors"%string) as [fv|]; [|reflexivity].
    apply IH.
Qed.

Lemma summary_loop_shift (front : list (gmap string (list (list A))))
    inits start results stats σ :
  summary_loop (Py.enumerate (length front + start) inits) (front ++ results) stats σ
  = summary_loop (Py.enumerate start inits) results stats σ.
Proof.
  revert start stats. induction inits as [|init inits IH]; intros start stats.
  - reflexivity.
  - change (Py.enumerate ?n (init :: inits))
      with ((n, init) :: Py.enumerate (S n) inits).
    rewrite !summary_loop_cons, lookup_app_r by lia.
    replace (length front + start - length front) with start by lia.
    destruct (results !! start) as [result|]; [|reflexivity].
    destruct (result !! "frequency_vectors"%string) as [fv|]; [|reflexivity].
    rewrite <- IH. do 3 f_equal. lia.
Qed.

(** A loop that ends normally found a result with its vectors at every
    index. *)
Lemma summary_loop_ok_inv inits start results stats σ rows :
  (summary_loop (Py.enumerate start inits) results stats σ).2 = inr rows →
  ∀ i, i < length inits →
       ∃ result, results !! (start + i) = Some result ∧ has_frequency_vectors result.
Proof.
  revert start stats. induction inits as [|init inits IH]; intros start stats Hok i Hi;
    simpl in Hi; [lia|].
  change (Py.enumerate start (init :: inits))
    with ((start, init) :: Py.enumerate (S start) inits) in Hok.
  rewrite summary_loop_cons in Hok.
  destruct (results !! start) as [result|] eqn:Hresult; [|discriminate Hok].
  destruct (result !! "frequency_vectors"%string) as [fv|] eqn:Hfv; [|discriminate Hok].
  destruct i as [|i].
  - exists result. rewrite Nat.add_0_r. split; [done|]. by exists fv.
  - destruct (IH _ _ Hok i) as (r & Hr & Hf); [lia|].
    exists r. split; [|done]. rewrite <- Hr. f_equal. lia.
Qed.

Lemma create_summary_table_result inits results σ :
  (create_summary_table inits results σ).2
  = (summary_loop (Py.enumerate 0 inits) results [] ∅).2.
Proof.
  rewrite create_summary_table_unfold.
  by destruct (summary_loop (Py.enumerate 0 inits) results [] ∅).2.
Qed.

(** X12: the call returns a table exactly when every initial state has, at its
    own index, a result that carries its frequency vectors: [all_results]
    is at least as long as [init_states] and the first [len(init_states)]
    results have the entry. Results beyond that play no part. *)
Theorem create_summary_table_returns_iff inits results σ :
  (∃ table, (create_summary_table inits results σ).2 = inr table)
  ↔ length inits ≤ length results
    ∧ Forall has_frequency_vectors (take (length inits) results).
Proof.
  split.
  - intros [table Htable]. rewrite create_summary_table_result in Htable.
    pose proof (summary_loop_ok_inv _ _ _ _ _ _ Htable) as Hall. simpl in Hall.
    assert (length inits ≤ length results) as Hlen.
    { destruct inits as [|init inits]; [simpl; lia|].
      destruct (Hall (length inits)) as (r & Hr%lookup_lt_Some & _); simpl in *; lia. }
    split; [done|]. apply Forall_lookup. intros i r Hr.
    pose proof (lookup_lt_Some _ _ _ Hr) as Hi.
    rewrite length_take in Hi.
    rewrite lookup_take_lt in Hr by lia.
    destruct (Hall i) as (r' & Hr' & Hf); [lia|]. congruence.
  - intros [Hlen Hfields].
    destruct (create_summary_table_rows inits results σ Hlen Hfields)
      as (table & Heq & _).
    exists table. by rewrite Heq.
Qed.

Lemma summary_loop_key_error inits start results stats σ i result :
  i < length inits →
  results !! (start + i) = Some result →
  result !! "frequency_vectors"%string = None →
  (∀ j, j < i → ∃ r, results !! (start + j) = Some r ∧ has_frequency_vectors r) →
  summary_loop (Py.enumerate start inits) results stats σ
  = (σ, inl (Py.KeyError "frequency_vectors")).
Proof.
  revert inits start stats.
  induction i as [|i IH]; intros inits start stats Hi Hresult Hmissing Hbefore;
    destruct inits as [|init inits]; simpl in Hi; try lia;
    change (Py.enumerate start (init :: inits))
      with ((start, init) :: Py.enumerate (S start) inits);
    rewrite summary_loop_cons.
  - rewrite Nat.add_0_r in Hresult. by rewrite Hresult, Hmissing.
  - destruct (Hbefore 0) as (r & Hr & [fv Hfv]); [lia|].
    rewrite Nat.add_0_r in Hr. rewrite Hr, Hfv.
    apply IH; [lia| |done|].
    + rewrite <- Hresult. f_equal. lia.
    + intros j Hj. destruct (Hbefore (S j)) as (r' & Hr' & Hf'); [lia|].
      exists r'. split; [|done]. rewrite <- Hr'. f_equal. lia.
Qed.

(** X13: a result without the ["frequency_vectors"] entry makes the call raise
    [KeyError] for that key, when every initial state before it was served:
    no table is returned and the pandas options are left as they were. *)
Theorem create_summary_table_key_error inits results σ i result :
  i < length inits →
  results !! i = Some result →
  result !! "frequency_vectors"%string = None →
  (∀ j, j < i → ∃ r, results !! j = Some r ∧ has_frequency_vectors r) →
  create_summary_table inits results σ = (σ, inl (Py.KeyError "frequency_vectors")).
Proof.
  intros Hi Hresult Hmissing Hbefore.
  rewrite create_summary_table_unfold.
  by rewrite (summary_loop_key_error inits 0 results [] ∅ i result).
Qed.

(** X14: tables compose: when [init_states1] and [all_results1] have the same
    length, the call on the concatenated inputs returns the table of the
    first pair followed by the table of the second, and raises what the
    first call raises, or else what the second raises. *)
Theorem create_summary_table_app inits1 inits2 results1 results2 σ :
  length inits1 = length results1 →
  (create_summary_table (inits1 ++ inits2) (results1 ++ results2) σ).2
  = match (create_summary_table inits1 results1 σ).2,
          (create_summary_table inits2 results2 σ).2 with
    | inr table1, inr table2 => inr (table1 ++ table2)
    | inr _, inl e => inl e
    | inl e, _ => inl e
    end.
Proof.
  intros Hlen. rewrite !create_summary_table_result.
  rewrite enumerate_app, summary_loop_items_app.
  rewrite (summary_loop_take inits1 0 (results1 ++ results2)). simpl.
  rewrite take_app_length' by done.
  destruct (summary_loop (Py.enumerate 0 inits1) results1 [] ∅).2 as [e|table1];
    [reflexivity|].
  rewrite summary_loop_stats.
  replace (length inits1) with (length results1 + 0) by lia.
  rewrite summary_loop_shift. reflexivity.
Qed.

(** X15: calling twice is as good as calling once: the second call returns what
    the first returned and leaves the pandas options as the first left
    them. *)
Theorem create_summary_table_twice inits results σ :
  create_summary_table inits results (create_summary_table inits results σ).1
  = create_summary_table inits results σ.
Proof.
  rewrite !create_summary_table_unfold.
  destruct (summary_loop (Py.enumerate 0 inits) results [] ∅).2; simpl; [done|].
  by rewrite insert_insert_eq.
Qed.

(** X16: whatever the length of [all_results], a table that is returned has one
    row per initial state; row [i] is built from [init_states[i]] and the
    frequency vectors of [all_results[i]], and its group count is at most
    half the number of those vectors. *)
Theorem create_summary_table_returned_rows inits results σ table :
  (create_summary_table inits results σ).2 = inr table →
  length table = length inits
  ∧ ∀ i row, table !! i = Some row →
      ∃ init result freq_vectors,
        inits !! i = Some init
        ∧ results !! i = Some result
        ∧ result !! "frequency_vectors"%string = Some freq_vectors
        ∧ row = summary_record init freq_vectors
        ∧ 2 * Group_Count row ≤ length freq_vectors.
Proof.
  intros Htable.
  pose proof Htable as Hloop. rewrite create_summary_table_result in Hloop.
  pose proof (summary_loop_ok_inv _ _ _ _ _ _ Hloop) as Hall. simpl in Hall.
  destruct (summary_loop_rows inits 0 results [] σ Hall) as (rows & Hrun & Hlen & Hrows).
  assert (table = rows) as ->.
  { rewrite create_summary_table_unfold in Htable.
    rewrite summary_loop_frame in Hrun. injection Hrun as Hrun.
    rewrite Hrun in Htable. simpl in Htable. congruence. }
  split; [done|]. intros i row Hrow.
  pose proof (lookup_lt_Some _ _ _ Hrow) as Hi. rewrite Hlen in Hi.
  destruct (lookup_lt_is_Some_2 inits i Hi) as [init Hinit].
  destruct (Hall i Hi) as (result & Hresult & [fv Hfv]).
  exists init, result, fv. split_and!; try done.
  - rewrite (Hrows i init result fv Hinit Hresult Hfv) in Hrow. congruence.
  - rewrite (Hrows i init result fv Hinit Hresult Hfv) in Hrow.
    injection Hrow as <-. simpl.
    pose proof (length_concat_ge _ 2 (group_sizes_ge_2 fv)).
    pose proof (length_reported_le fv). lia.
Qed.

End summary_more.

(** * Properties of the plotting helpers *)

Section plotting_facts.
Context {A : Type}.
Implicit Types (fvs : list (list A)) (log : list (@plt_call A)) (rule_nums : list Z).

Lemma index_is_Some {B} (l : list B) (i : Z) :
  is_Some (index l i) ↔ (- Z.of_nat (length l) ≤ i < Z.of_nat (length l))%Z.
Proof.
  unfold index. destruct (decide (0 ≤ i)%Z).
  - rewrite lookup_lt_is_Some. lia.
  - destruct (decide (- Z.of_nat (length l) ≤ i)%Z).
    + rewrite lookup_lt_is_Some. lia.
    + split; [by intros [? ?]|lia].
Qed.

Lemma index_nonneg {B} (l : list B) (n : nat) : index l (Z.of_nat n) = l !! n.
Proof. unfold index. rewrite decide_True by lia. by rewrite Nat2Z.id. Qed.

Lemma plot_lines_cons fvs rule_num rule_nums log :
  plot_lines fvs (rule_num :: rule_nums) log
  = match index fvs rule_num with
    | Some vec =>
        plot_lines fvs rule_nums
          (log ++ [plt_plot (arange (length vec)) vec ("Rule " +:+ Py.str rule_num)])
    | None => (log, inl Py.IndexError)
    end.
Proof.
  simpl. unfold mbind, Plt_bind, subscript.
  destruct (index fvs rule_num); reflexivity.
Qed.

Lemma plot_lines_ok fvs rule_nums log :
  Forall (λ n, is_Some (index fvs n)) rule_nums →
  plot_lines fvs rule_nums log = (log ++ line_calls fvs rule_nums, inr ()).
Proof.
  intros Hok. revert log. induction Hok as [|n rule_nums [vec Hn] _ IH]; intros log.
  - simpl. by rewrite app_nil_r.
  - rewrite plot_lines_cons, Hn, IH. unfold line_calls. simpl.
    unfold line_call at 2. rewrite Hn. simpl. by rewrite <- app_assoc.
Qed.

Lemma plot_lines_index_error fvs good bad rest log :
  Forall (λ n, is_Some (index fvs n)) good →
  index fvs bad = None →
  plot_lines fvs (good ++ bad :: rest) log
  = (log ++ line_calls fvs good, inl Py.IndexError).
Proof.
  intros Hgood Hbad. revert log.
  induction Hgood as [|n good [vec Hn] _ IH]; intros log.
  - simpl app. rewrite plot_lines_cons, Hbad. by rewrite app_nil_r.
  - change ((n :: good) ++ bad :: rest) with (n :: (good ++ bad :: rest)).
    rewrite plot_lines_cons, Hn, IH. unfold line_calls. simpl.
    unfold line_call at 2. rewrite Hn. simpl. by rewrite <- app_assoc.
Qed.

Lemma plot_multiple_unfold fvs rule_nums title log :
  plot_multiple_frequency_vectors fvs rule_nums title log
  = match plot_lines fvs rule_nums (log ++ [plt_figure (10, 6)%Z]) with
    | (log', inl e) => (log', inl e)
    | (log', inr _) => (log' ++ closing_calls title, inr ())
    end.
Proof.
  unfold plot_multiple_frequency_vectors, finish_line_plot, mbind, Plt_bind, plt.
  simpl. destruct (plot_lines fvs rule_nums _) as [log' [e|[]]]; [done|].
  unfold closing_calls. by rewrite <- !app_assoc.
Qed.

Lemma series_of_app log1 log2 :
  series_of (log1 ++ log2) = series_of log1 ++ series_of log2.
Proof. apply omap_app. Qed.

Lemma series_of_line_calls fvs rule_nums :
  series_of (line_calls fvs rule_nums)
  = omap (λ n, pair ("Rule " +:+ Py.str n) <$> index fvs n) rule_nums.
Proof.
  unfold line_calls. induction rule_nums as [|n rule_nums IH]; [done|].
  csimpl. unfold line_call at 1. destruct (index fvs n) as [vec|]; csimpl; [|done].
  by rewrite IH.
Qed.

Lemma plot_lines_ok_inv fvs rule_nums log log' :
  plot_lines fvs rule_nums log = (log', inr ()) →
  Forall (λ n, is_Some (index fvs n)) rule_nums.
Proof.
  revert log. induction rule_nums as [|n rule_nums IH]; intros log Hrun; [constructor|].
  rewrite plot_lines_cons in Hrun.
  destruct (index fvs n) as [vec|] eqn:Hn; [|discriminate Hrun].
  constructor; [by exists vec|]. by eapply IH.
Qed.

Lemma elem_of_line_calls fvs rule_nums call :
  call ∈ line_calls fvs rule_nums → ∃ xs ys label, call = plt_plot xs ys label.
Proof.
  intros (n & _ & Hcall)%list_elem_of_omap. unfold line_call in Hcall.
  destruct (index fvs n) as [vec|]; simplify_eq/=. eauto.
Qed.

Lemma unshown_after_lines fvs rule_nums log figsize :
  ¬ shown (log ++ plt_figure figsize :: line_calls fvs rule_nums).
Proof.
  unfold shown. rewrite last_app.
  destruct (last (plt_figure figsize :: line_calls fvs rule_nums)) as [call|] eqn:Hlast.
  - apply last_Some_elem_of in Hlast.
    apply elem_of_cons in Hlast as [->|(xs & ys & label & ->)%elem_of_line_calls];
      by intros [=].
  - by apply last_None in Hlast.
Qed.

(** X17: [plot_multiple_frequency_vectors] returns exactly when every rule number
    is a valid subscript of [frequency_vectors], negative ones counting from
    the end: [-len <= rule_num < len]. *)
Theorem plot_multiple_frequency_vectors_returns_iff fvs rule_nums title log :
  (∃ log', plot_multiple_frequency_vectors fvs rule_nums title log = (log', inr ()))
  ↔ Forall (λ n, - Z.of_nat (length fvs) ≤ n < Z.of_nat (length fvs))%Z rule_nums.
Proof.
  rewrite plot_multiple_unfold. split.
  - intros [log' Hrun].
    destruct (plot_lines fvs rule_nums _) as [log'' [e|[]]] eqn:Hlines; [done|].
    apply plot_lines_ok_inv in Hlines.
    eapply Forall_impl; [exact Hlines|]. intros n. by rewrite index_is_Some.
  - intros Hrange. rewrite plot_lines_ok; [by eexists|].
    eapply Forall_impl; [exact Hrange|]. intros n. by rewrite index_is_Some.
Qed.

(** X18: when all rule numbers are valid subscripts, the call draws one line per
    rule number, in the order given, labelled ["Rule n"] and carrying
    [frequency_vectors[n]], after the lines already in the log, and ends by
    showing the figure. *)
Theorem plot_multiple_frequency_vectors_series fvs rule_nums title log :
  Forall (λ n, - Z.of_nat (length fvs) ≤ n < Z.of_nat (length fvs))%Z rule_nums →
  ∃ log',
    plot_multiple_frequency_vectors fvs rule_nums title log = (log', inr ())
    ∧ series_of log'
      = series_of log
        ++ omap (λ n, pair ("Rule " +:+ Py.str n) <$> index fvs n) rule_nums
    ∧ length (series_of log') = length (series_of log) + length rule_nums
    ∧ shown log'.
Proof.
  intros Hrange.
  assert (Forall (λ n, is_Some (index fvs n)) rule_nums) as Hok.
  { eapply Forall_impl; [exact Hrange|]. intros n. by rewrite index_is_Some. }
  rewrite plot_multiple_unfold, plot_lines_ok by done.
  eexists. split; [reflexivity|].
  assert (series_of ((log ++ [plt_figure (10, 6)%Z]) ++ line_calls fvs rule_nums
                     ++ closing_calls title)
          = series_of log
            ++ omap (λ n, pair ("Rule " +:+ Py.str n) <$> index fvs n) rule_nums)
    as Hseries.
  { rewrite !series_of_app, series_of_line_calls. simpl. by rewrite !app_nil_r. }
  rewrite <- app_assoc. split_and!; [done| |].
  - rewrite Hseries, length_app. f_equal.
    clear Hseries Hrange. induction Hok as [|n rule_nums [vec Hn] _ IH]; [done|].
    csimpl. rewrite Hn. csimpl. by rewrite IH.
  - unfold shown. by rewrite !last_app.
Qed.

(** X19: a rule number that is not a valid subscript makes the call raise
    [IndexError] in the middle of the drawing: the figure is open, the lines
    of the rule numbers before the bad one are drawn, and nothing after
    them is: no title, no legend, and the figure is not shown. *)
Theorem plot_multiple_frequency_vectors_index_error fvs good bad rest title log :
  Forall (λ n, - Z.of_nat (length fvs) ≤ n < Z.of_nat (length fvs))%Z good →
  ¬ (- Z.of_nat (length fvs) ≤ bad < Z.of_nat (length fvs))%Z →
  plot_multiple_frequency_vectors fvs (good ++ bad :: rest) title log
  = (log ++ plt_figure (10, 6)%Z :: line_calls fvs good, inl Py.IndexError)
  ∧ length (line_calls fvs good) = length good
  ∧ ¬ shown (log ++ plt_figure (10, 6)%Z :: line_calls fvs good).
Proof.
  intros Hgood Hbad.
  assert (Forall (λ n, is_Some (index fvs n)) good) as Hok.
  { eapply Forall_impl; [exact Hgood|]. intros n. by rewrite index_is_Some. }
  assert (index fvs bad = None) as Hnone.
  { apply eq_None_not_Some. by rewrite index_is_Some. }
  split_and!.
  - rewrite plot_multiple_unfold, plot_lines_index_error by done.
    by rewrite <- app_assoc.
  - clear Hgood. unfold line_calls.
    induction Hok as [|n good [vec Hn] _ IH]; [done|].
    csimpl. unfold line_call at 1. rewrite Hn. csimpl. by rewrite IH.
  - apply unshown_after_lines.
Qed.

(** X21: [plot_frequency_vector(n, frequency_vectors[n])], the use its docstring
    shows, never raises once the subscript is taken, and draws the very line
    that [plot_multiple_frequency_vectors(frequency_vectors, [n])] draws:
    one series, labelled ["Rule n"], with the vector as data and the
    positions [0 .. len - 1] as abscissas; both end by showing the figure. *)
Theorem plot_frequency_vector_single_line fvs n vec title_prefix title log :
  index fvs n = Some vec →
  ∃ log1 log2,
    plot_frequency_vector n vec title_prefix log = (log1, inr ())
    ∧ plot_multiple_frequency_vectors fvs [n] title log = (log2, inr ())
    ∧ series_of log1 = series_of log ++ [("Rule " +:+ Py.str n, vec)]
    ∧ series_of log2 = series_of log1
    ∧ plt_plot (seq 0 (length vec)) vec ("Rule " +:+ Py.str n) ∈ log1
    ∧ shown log1 ∧ shown log2.
Proof.
  intros Hn.
  rewrite plot_multiple_unfold, plot_lines_cons, Hn. simpl.
  eexists _, _. split_and!; [reflexivity|reflexivity| | | | |].
  - rewrite !series_of_app. simpl. by rewrite !app_nil_r.
  - rewrite !series_of_app. simpl. by rewrite !app_nil_r.
  - rewrite !elem_of_app. left. left. left. left. left. left. right. by left.
  - unfold shown. by rewrite !last_app.
  - unfold shown. by rewrite !last_app.
Qed.

End plotting_facts.

Section plotting_groups.
Context {A : Type} `{EqDecision A}.

(** X20: rule numbers are counted from 1 by [group_duplicates] and used as
    subscripts, counted from 0, by [plot_multiple_frequency_vectors]. A
    group that contains the last rule therefore cannot be plotted: the call
    raises [IndexError]. Any other group is plotted, and the line labelled
    ["Rule n"] carries the vector at subscript [n], which is the vector
    [group_duplicates] numbers [n + 1]. *)
Theorem plot_group_subscripts_shifted (V : list (list A)) group title
    (log : list (@plt_call A)) :
  group ∈ group_duplicates V →
  (length V ∈ group →
   (plot_multiple_frequency_vectors V (Z.of_nat <$> group) title log).2
   = inl Py.IndexError)
  ∧ (length V ∉ group →
     ∃ log',
       plot_multiple_frequency_vectors V (Z.of_nat <$> group) title log = (log', inr ())
       ∧ series_of log'
         = series_of log
           ++ omap (λ n, pair ("Rule " +:+ Py.str (Z.of_nat n)) <$> V !! n) group).
Proof.
  intros (key & _ & -> & _)%elem_of_group_duplicates. split.
  - intros Hlast.
    apply list_elem_of_split_l in Hlast as (good & rest & Hsplit & Hgood).
    assert (Forall (λ n, is_Some (index V n)) (Z.of_nat <$> good)) as Hok.
    { apply Forall_fmap, Forall_forall. intros n Hn. simpl.
      rewrite index_nonneg. apply lookup_lt_is_Some.
      assert (n ∈ rule_indices key V) as Hmem%rule_indices_range
        by (rewrite Hsplit; apply elem_of_app; by left).
      assert (n ≠ length V) by (by intros ->). lia. }
    rewrite Hsplit, fmap_app, fmap_cons.
    rewrite plot_multiple_unfold, plot_lines_index_error; [done|done|].
    rewrite index_nonneg. by apply lookup_ge_None.
  - intros Hlast.
    assert (Forall (λ n, is_Some (index V n)) (Z.of_nat <$> rule_indices key V)) as Hok.
    { apply Forall_fmap, Forall_forall. intros n Hn. simpl.
      rewrite index_nonneg. apply lookup_lt_is_Some.
      pose proof (rule_indices_range _ _ _ Hn).
      assert (n ≠ length V) by (by intros ->). lia. }
    rewrite plot_multiple_unfold, plot_lines_ok by done.
    eexists. split; [reflexivity|].
    rewrite !series_of_app, series_of_line_calls. simpl. rewrite !app_nil_r.
    f_equal. generalize (rule_indices key V). intros l.
    induction l as [|n l IH]; [done|]. csimpl. by rewrite index_nonneg, IH.
Qed.

End plotting_groups.

(** * Instances of the conditional properties *)

Lemma bucket_loop_partitions_witness :
  NoDup (bucket_loop 1 [[1; 0]; [0; 1]; [1; 0]]%Z []).*1.
Proof.
  exact (proj1 (bucket_loop_partitions 1 [[1; 0]; [0; 1]; [1; 0]]%Z []) NoDup_nil_2).
Defined.

Lemma group_duplicates_app_extends_witness :
  ∃ tail, [1; 2] ++ tail ∈ group_duplicates ([[1]; [1]; [2]] ++ [[1]; [2]])%Z
          ∧ Forall (λ n, length [[1]; [1]; [2]]%Z < n) tail.
Proof.
  apply (group_duplicates_app_extends [[1]; [1]; [2]]%Z [[1]; [2]]%Z [1; 2]).
  vm_compute. left.
Defined.

Lemma group_duplicates_snoc_fresh_witness :
  group_duplicates ([[1]; [1]]%Z ++ [[2]%Z]) = group_duplicates [[1]; [1]]%Z.
Proof.
  apply (group_duplicates_snoc_fresh [[1]; [1]]%Z [2]%Z).
  intros Hin. repeat (apply elem_of_cons in Hin as [Hin|Hin]; [discriminate Hin|]).
  by apply not_elem_of_nil in Hin.
Defined.

Lemma group_duplicates_injective_image_witness :
  group_duplicates (cons 0%Z <$> [[1]; [2]; [1]]%Z) = group_duplicates [[1]; [2]; [1]]%Z.
Proof.
  apply (group_duplicates_injective_image (cons 0%Z)).
Defined.

Lemma create_summary_table_key_error_witness :
  create_summary_table (A := Z) [[0]; [1]]%Z
    [ {["frequency_vectors"%string := [[1]; [1]]%Z]}; ∅ ] ∅
  = (∅, inl (Py.KeyError "frequency_vectors")).
Proof.
  apply (create_summary_table_key_error (A := Z) [[0]; [1]]%Z
           [ {["frequency_vectors"%string := [[1]; [1]]%Z]}; ∅ ] ∅ 1 ∅).
  - simpl. lia.
  - reflexivity.
  - reflexivity.
  - intros j Hj. assert (j = 0) as -> by lia.
    eexists. split; [reflexivity|]. by eexists.
Defined.

Lemma create_summary_table_app_witness :
  (create_summary_table (A := Z) ([[0]] ++ [[1]])%Z
     ([ {["frequency_vectors"%string := [[1]; [1]]%Z]} ]
      ++ [ {["frequency_vectors"%string := [[2]]%Z]} ]) ∅).2
  = inr ([SummaryRow "0" 1 [[1; 2]]] ++ [SummaryRow "1" 0 []]).
Proof.
  rewrite (create_summary_table_app (A := Z) [[0]]%Z [[1]]%Z
             [ {["frequency_vectors"%string := [[1]; [1]]%Z]} ]
             [ {["frequency_vectors"%string := [[2]]%Z]} ] ∅); reflexivity.
Defined.

Lemma create_summary_table_returned_rows_witness :
  length [SummaryRow "0" 1 [[1; 2]]] = length [[0]%Z].
Proof.
  apply (create_summary_table_returned_rows (A := Z) [[0]]%Z
           [ {["frequency_vectors"%string := [[1]; [1]]%Z]}; ∅ ] ∅
           [SummaryRow "0" 1 [[1; 2]]]).
  reflexivity.
Defined.

Lemma plot_multiple_frequency_vectors_series_witness :
  ∃ log',
    plot_multiple_frequency_vectors [[1; 0]; [0; 1]]%Z [1; -2]%Z "Frequency Vectors" []
    = (log', inr ())
    ∧ series_of log'
      = series_of []
        ++ omap (λ n, pair ("Rule " +:+ Py.str n) <$> index [[1; 0]; [0; 1]]%Z n) [1; -2]%Z
    ∧ length (series_of log') = length (series_of (A := Z) []) + length [1; -2]%Z
    ∧ shown log'.
Proof.
  apply (plot_multiple_frequency_vectors_series [[1; 0]; [0; 1]]%Z [1; -2]%Z).
  repeat (constructor; [simpl; lia|]). constructor.
Defined.

Lemma plot_multiple_frequency_vectors_index_error_witness :
  (plot_multiple_frequency_vectors [[1; 0]; [0; 1]]%Z ([0] ++ 2 :: [1])%Z
     "Frequency Vectors" []).2
  = inl Py.IndexError.
Proof.
  destruct (plot_multiple_frequency_vectors_index_error
              [[1; 0]; [0; 1]]%Z [0]%Z 2%Z [1]%Z "Frequency Vectors" [])
    as [Hrun _].
  - repeat (constructor; [simpl; lia|]). constructor.
  - simpl. lia.
  - rewrite Hrun. reflexivity.
Defined.

Lemma plot_group_subscripts_shifted_witness :
  (plot_multiple_frequency_vectors [[1]; [1]]%Z (Z.of_nat <$> [1; 2])
     "Frequency Vectors" []).2
  = inl Py.IndexError.
Proof.
  apply (plot_group_subscripts_shifted [[1]; [1]]%Z [1; 2] "Frequency Vectors" []).
  - vm_compute. left.
  - simpl. right. left.
Defined.

Lemma plot_frequency_vector_single_line_witness :
  ∃ log1 log2,
    plot_frequency_vector 1 [0; 1]%Z default_title_prefix [] = (log1, inr ())
    ∧ plot_multiple_frequency_vectors [[1; 0]; [0; 1]]%Z [1%Z] default_title []
      = (log2, inr ())
    ∧ series_of log1 = series_of [] ++ [("Rule " +:+ Py.str 1, [0; 1]%Z)]
    ∧ series_of log2 = series_of log1
    ∧ plt_plot (seq 0 (length [0; 1]%Z)) [0; 1]%Z ("Rule " +:+ Py.str 1) ∈ log1
    ∧ shown log1 ∧ shown log2.
Proof.
  apply (plot_frequency_vector_single_line [[1; 0]; [0; 1]]%Z 1 [0; 1]%Z).
  reflexivity.
Defined.
